(** * libanon: the uint64 anonymization mapper (src/anon-uint64.c) and the
      [uint64] subcommand of the sample program (src/anon.c).

    The C code is embedded as pure functions over an explicit [world]:
    - [uint64_t] values are [Z] with the 64-bit wrap-around written out;
    - the sorted linked list [struct node *] is a [list Z], head first;
    - the OpenSSL [LHASH] table keyed by [num] is a [gmap Z Z]
      (key [num], value [hash]);
    - [RAND_bytes] and [malloc] read oracles carried by the [world];
    - a call either returns, dies on an [assert] (they are compiled in),
      runs into undefined behaviour, or is still in a re-draw loop when
      the [fuel], the number of rounds granted to each such loop, is used
      up.

    Left out: [free] (the allocator oracle does not count memory), the
    allocations made inside [lh_new] and [lh_insert], the loop of
    [anon_uint64_new] that seeds the generator until [RAND_status] holds,
    the messages written to [stderr], and in [cmd_uint64] the key calls and
    the option loop that come before the positional arguments are read. *)

From Stdlib Require Import ZArith List Lia Sorted String Ascii.
From stdpp Require Import gmap list sorting.

Local Open Scope Z_scope.

(** ** Machine integers *)

Definition UINT64_MOD : Z := 2 ^ 64.
Definition UINT64_MAX : Z := UINT64_MOD - 1.
Definition INT_MAX : Z := 2 ^ 31 - 1.

(** Reduction of a mathematical integer to its [uint64_t] value. *)
Definition wrap64 (z : Z) : Z := z mod UINT64_MOD.

Definition is_uint64 (z : Z) : Prop := 0 <= z < UINT64_MOD.

(** ** Outcomes of a C call *)

Inductive outcome (A : Type) : Type :=
| Return (x : A)   (* the call returns [x] *)
| AssertFail       (* an [assert] failed: the process is aborted *)
| Undefined        (* undefined behaviour: [% 0], NULL dereference,
                      signed overflow *)
| Hang.            (* a re-draw loop is still running after [fuel] rounds *)

Arguments Return {A} x.
Arguments AssertFail {A}.
Arguments Undefined {A}.
Arguments Hang {A}.

Definition obind {A B : Type} (m : outcome A) (k : A -> outcome B) : outcome B :=
  match m with
  | Return x => k x
  | AssertFail => AssertFail
  | Undefined => Undefined
  | Hang => Hang
  end.

Notation "'do' x <- m ; k" := (obind m (fun x => k))
  (at level 10, x pattern, m at level 100, k at level 200).

Definition returns {A : Type} (m : outcome A) : Prop := exists x, m = Return x.

(** ** The environment: randomness and the allocator

    [rand_stream w n] is what the [n]-th call of [RAND_bytes] stores in the
    eight bytes it is given, read as an integer; [heap w n] tells whether the
    [n]-th call of [malloc] succeeds.  The code ignores the status of
    [RAND_bytes] and zeroes the buffer first, so a failing call is the
    draw [0]. *)

Record world : Type := {
  rand_stream : nat -> Z;
  rand_calls : nat;
  heap : nat -> bool;
  malloc_calls : nat
}.

Definition RAND_bytes (w : world) : Z * world :=
  (wrap64 (rand_stream w (rand_calls w)),
   {| rand_stream := rand_stream w; rand_calls := S (rand_calls w);
      heap := heap w; malloc_calls := malloc_calls w |}).

Definition malloc (w : world) : bool * world :=
  (heap w (malloc_calls w),
   {| rand_stream := rand_stream w; rand_calls := rand_calls w;
      heap := heap w; malloc_calls := S (malloc_calls w) |}).

(** ** The mapper object *)

Inductive anon_uint64_state_t : Type := INIT | NON_LEX | LEX.

Definition state_eqb (s t : anon_uint64_state_t) : bool :=
  match s, t with
  | INIT, INIT | NON_LEX, NON_LEX | LEX, LEX => true
  | _, _ => false
  end.

(** [struct _anon_uint64]; the field [list] is [a_list] here. *)
Record anon_uint64_t : Type := {
  a_hash_table : gmap Z Z;
  a_list : list Z;
  a_state : anon_uint64_state_t;
  a_lower : Z;
  a_upper : Z;
  a_range : Z
}.

Definition set_list (a : anon_uint64_t) (l : list Z) : anon_uint64_t :=
  {| a_hash_table := a_hash_table a; a_list := l; a_state := a_state a;
     a_lower := a_lower a; a_upper := a_upper a; a_range := a_range a |}.

Definition set_a_state (a : anon_uint64_t) (s : anon_uint64_state_t) : anon_uint64_t :=
  {| a_hash_table := a_hash_table a; a_list := a_list a; a_state := s;
     a_lower := a_lower a; a_upper := a_upper a; a_range := a_range a |}.

Definition set_hash_table (a : anon_uint64_t) (t : gmap Z Z) : anon_uint64_t :=
  {| a_hash_table := t; a_list := a_list a; a_state := a_state a;
     a_lower := a_lower a; a_upper := a_upper a; a_range := a_range a |}.

(** [lh_insert] and [lh_retrieve] with [anon_uint64_cmp]: entries are
    compared by [num] alone. *)
Definition lh_insert (t : gmap Z Z) (num hash : Z) : gmap Z Z := <[num := hash]> t.
Definition lh_retrieve (t : gmap Z Z) (num : Z) : option Z := t !! num.

(** ** [list_insert] *)

(** The [for] loop of [list_insert]: [None] when [num] is met ([return 1]),
    otherwise the nodes walked past ([q] is the last of them) and the
    rest of the list ([p]). *)
Fixpoint list_search (l : list Z) (num : Z) : option (list Z * list Z) :=
  match l with
  | [] => Some ([], [])
  | pnum :: next =>
      if num =? pnum then None
      else if pnum <? num then Some ([], l)
      else match list_search next num with
           | None => None
           | Some (before, after) => Some (pnum :: before, after)
           end
  end.

(** Result: the [int] returned, the list, the world. *)
Definition list_insert (l : list Z) (num : Z) (w : world) : Z * list Z * world :=
  match list_search l num with
  | None => (1, l, w)
  | Some (before, after) =>
      let (n, w') := malloc w in
      if n then (0, before ++ num :: after, w') else (-1, l, w')
  end.

(** ** [generate_random_number] *)

Definition generate_random_number (a : anon_uint64_t) (w : world) : outcome (Z * world) :=
  let (raw, w') := RAND_bytes w in
  if a_range a =? 0 then Undefined
  else Return (wrap64 (raw mod a_range a + a_lower a), w').

(** ** [anon_uint64_set_state] *)

(** [do { generate_random_number(&anum, a); } while (list_insert(&hashlist,anum)==1);] *)
Fixpoint draw_hash (fuel : nat) (a : anon_uint64_t) (hashlist : list Z) (w : world)
  : outcome (list Z * world) :=
  match fuel with
  | O => Hang
  | S fuel' =>
      do (anum, w1) <- generate_random_number a w;
      let '(r, hashlist', w2) := list_insert hashlist anum w1 in
      if r =? 1 then draw_hash fuel' a hashlist' w2 else Return (hashlist', w2)
  end.

(** The first loop of the [LEX] case, over the nodes [p] of [a->list].
    [count] is an [int]: [count++] at [INT_MAX] overflows; in the comparison
    with [a->upper - a->lower + 1], a [uint64_t], the positive [count] keeps
    its value. *)
Fixpoint populate_hashlist (fuel : nat) (a : anon_uint64_t) (p : list Z) (count : Z)
    (hashlist : list Z) (w : world) : outcome (list Z * world) :=
  match p with
  | [] => Return (hashlist, w)
  | _ :: next =>
      if count =? INT_MAX then Undefined
      else
        let count' := count + 1 in
        if wrap64 (a_upper a - a_lower a + 1) <? count' then AssertFail
        else
          do (hashlist', w') <- draw_hash fuel a hashlist w;
          populate_hashlist fuel a next count' hashlist' w'
  end.

(** The second loop: one [hash_node] per node of [a->list], paired with the
    node of [hashlist] at the same position. *)
Fixpoint assign_hashes (p q : list Z) (t : gmap Z Z) (w : world)
  : outcome (gmap Z Z * world) :=
  match p with
  | [] => Return (t, w)
  | pnum :: pnext =>
      let (node, w') := malloc w in
      if negb node then AssertFail
      else match q with
           | [] => Undefined
           | qnum :: qnext => assign_hashes pnext qnext (lh_insert t pnum qnum) w'
           end
  end.

(** The parameter [state] is one of the three enumerators in every call of
    this file, so the [default] case of the [switch] is not met. *)
Definition anon_uint64_set_state (fuel : nat) (a : anon_uint64_t)
    (state : anon_uint64_state_t) (w : world) : outcome (Z * anon_uint64_t * world) :=
  match state with
  | INIT => Return (0, a, w)
  | NON_LEX =>
      if state_eqb (a_state a) NON_LEX then Return (0, a, w)
      else if negb (state_eqb (a_state a) INIT) then AssertFail
      else Return (0, set_a_state a NON_LEX, w)
  | LEX =>
      if state_eqb (a_state a) LEX then Return (0, a, w)
      else if negb (state_eqb (a_state a) INIT) then AssertFail
      else
        let a1 := set_a_state a LEX in
        do (hashlist, w1) <- populate_hashlist fuel a1 (a_list a1) 0 [] w;
        do (t, w2) <- assign_hashes (a_list a1) hashlist (a_hash_table a1) w1;
        Return (0, set_list (set_hash_table a1 t) [], w2)
  end.

(** ** The public operations *)

Definition anon_uint64_new (lower upper : Z) (w : world)
  : outcome (option anon_uint64_t * world) :=
  if negb (lower <=? upper) then AssertFail
  else
    let (a, w') := malloc w in
    if negb a then Return (None, w')
    else Return (Some {| a_hash_table := ∅; a_list := []; a_state := INIT;
                         a_lower := lower; a_upper := upper;
                         a_range := wrap64 (upper - lower + 1) |}, w').

(** Modelled from the spec: [anon_key_t] is declared in libanon.h, which is
    not among the sources at hand; the specification has a key as a
    fixed-length sequence of bytes.  The mapper never looks into it. *)
Definition anon_key_t : Type := list Z.

Definition anon_uint64_set_key (a : anon_uint64_t) (key : anon_key_t) : anon_uint64_t := a.

Definition anon_uint64_set_used (a : anon_uint64_t) (num : Z) (w : world)
  : outcome (Z * anon_uint64_t * world) :=
  do (_, a1, w1) <- anon_uint64_set_state O a INIT w;
  let '(r, l, w2) := list_insert (a_list a1) num w1 in
  if 0 <=? r then Return (0, set_list a1 l, w2) else Return (-1, set_list a1 l, w2).

(** The [do ... while (tmp==1)] loop of [anon_uint64_map]. *)
Fixpoint draw_fresh (fuel : nat) (a : anon_uint64_t) (l : list Z) (w : world)
  : outcome (Z * list Z * world) :=
  match fuel with
  | O => Hang
  | S fuel' =>
      do (anum, w1) <- generate_random_number a w;
      let '(tmp, l', w2) := list_insert l anum w1 in
      if negb (0 <=? tmp) then AssertFail
      else if tmp =? 1 then draw_fresh fuel' a l' w2
      else Return (anum, l', w2)
  end.

(** Result: the status, [*anum], the object, the world. *)
Definition anon_uint64_map (fuel : nat) (a : anon_uint64_t) (num : Z) (w : world)
  : outcome (Z * Z * anon_uint64_t * world) :=
  do (_, a1, w1) <- anon_uint64_set_state fuel a NON_LEX w;
  match lh_retrieve (a_hash_table a1) num with
  | Some hash => Return (0, hash, a1, w1)
  | None =>
      do (anum, l, w2) <- draw_fresh fuel a1 (a_list a1) w1;
      let (p, w3) := malloc w2 in
      if negb p then AssertFail
      else Return (0, anum,
                   set_hash_table (set_list a1 l) (lh_insert (a_hash_table a1) num anum),
                   w3)
  end.

Definition anon_uint64_map_lex (fuel : nat) (a : anon_uint64_t) (num : Z) (w : world)
  : outcome (Z * Z * anon_uint64_t * world) :=
  do (_, a1, w1) <- anon_uint64_set_state fuel a LEX w;
  match lh_retrieve (a_hash_table a1) num with
  | None => AssertFail
  | Some hash => Return (0, hash, a1, w1)
  end.

(** ** Sequences of calls on one object *)

(** One returning call of the public interface takes the object [a] to [a'].
    Every call may find the environment in another state. *)
Inductive call_step : anon_uint64_t -> anon_uint64_t -> Prop :=
| step_set_key a key :
    call_step a (anon_uint64_set_key a key)
| step_set_used a num w r a' w' :
    anon_uint64_set_used a num w = Return (r, a', w') ->
    call_step a a'
| step_map fuel a num w r anum a' w' :
    anon_uint64_map fuel a num w = Return (r, anum, a', w') ->
    call_step a a'
| step_map_lex fuel a num w r anum a' w' :
    anon_uint64_map_lex fuel a num w = Return (r, anum, a', w') ->
    call_step a a'.

(** The objects a program can hold: made by [anon_uint64_new lower upper]
    and then used through the interface only. *)
Definition reachable (lower upper : Z) (a : anon_uint64_t) : Prop :=
  is_uint64 lower /\ is_uint64 upper /\
  exists w a0 w0,
    anon_uint64_new lower upper w = Return (Some a0, w0) /\ rtc call_step a0 a.

(** The list is strictly descending from its head. *)
Definition descending (l : list Z) : Prop := StronglySorted Z.gt l.

(** The table is strictly increasing as a function from [num] to [hash]. *)
Definition increasing (t : gmap Z Z) : Prop :=
  forall k1 k2 v1 v2, t !! k1 = Some v1 -> t !! k2 = Some v2 -> k1 < k2 -> v1 < v2.

(** Every residue modulo [range] keeps turning up in the random stream, as
    it does with probability one when the draws are uniform. *)
Definition fair (range : Z) (w : world) : Prop :=
  forall (n : nat) (v : Z), 0 <= v < range ->
    exists m : nat, (n <= m)%nat /\ wrap64 (rand_stream w m) mod range = v.

(** No allocation fails. *)
Definition roomy (w : world) : Prop := forall n, heap w n = true.

(** ** The sample program: [uint64_lex], [uint64_nolex], [cmd_uint64] *)

(** [isspace] in the C locale. *)
Definition is_space (c : ascii) : bool :=
  let n := Z.of_nat (nat_of_ascii c) in
  (n =? 32) || ((9 <=? n) && (n <=? 13)).

Definition digit_of (c : ascii) : option Z :=
  let n := Z.of_nat (nat_of_ascii c) in
  if (48 <=? n) && (n <=? 57) then Some (n - 48) else None.

Fixpoint skip_space (s : string) : string :=
  match s with
  | String c rest => if is_space c then skip_space rest else s
  | EmptyString => s
  end.

Fixpoint read_digits (s : string) (acc : option Z) : option Z :=
  match s with
  | String c rest =>
      match digit_of c with
      | Some d => read_digits rest (Some (10 * default 0 acc + d))
      | None => acc
      end
  | EmptyString => acc
  end.

(** [sscanf(s, "%" SCNu64, &v) == 1] and the [v] stored, as the C library
    converts: white space is skipped, a sign is accepted, at least one
    digit is needed, too large a value is clamped. *)
Definition sscanf_u64 (s : string) : option Z :=
  let s1 := skip_space s in
  let '(neg, s2) :=
    match s1 with
    | String "-"%char rest => (true, rest)
    | String "+"%char rest => (false, rest)
    | _ => (false, s1)
    end in
  match read_digits s2 None with
  | None => None
  | Some v =>
      Some (if UINT64_MAX <? v then UINT64_MAX
            else if neg then wrap64 (- v) else v)
  end.

(** A file is known by the numbers that the loop
    [while (fscanf(f, "%" SCNu64, &num) == 1)] reads from it; [None] is a
    name that [fopen] cannot open. *)
Definition filesystem : Type := string -> option (list Z).

Definition EXIT_SUCCESS : Z := 0.
Definition EXIT_FAILURE : Z := 1.

Inductive cmd_status : Type :=
| Exit (code : Z)                          (* [exit(code)] was called *)
| Done (opened : string) (printed : list Z). (* the command returned after
     reading the file [opened] and printing the lines [printed] *)

(** First pass of [uint64_lex]. *)
Fixpoint mark_used (a : anon_uint64_t) (nums : list Z) (w : world)
  : outcome (anon_uint64_t * world) :=
  match nums with
  | [] => Return (a, w)
  | num :: rest =>
      do (_, a', w') <- anon_uint64_set_used a num w;
      mark_used a' rest w'
  end.

(** Second pass of [uint64_lex]. *)
Fixpoint print_lex (fuel : nat) (a : anon_uint64_t) (nums : list Z) (w : world)
  : outcome (list Z * anon_uint64_t * world) :=
  match nums with
  | [] => Return ([], a, w)
  | num :: rest =>
      do (_, anum, a', w') <- anon_uint64_map_lex fuel a num w;
      do (out, a'', w'') <- print_lex fuel a' rest w';
      Return (anum :: out, a'', w'')
  end.

Definition uint64_lex (fuel : nat) (a : anon_uint64_t) (f : list Z) (w : world)
  : outcome (list Z * anon_uint64_t * world) :=
  do (a', w') <- mark_used a f w;
  print_lex fuel a' f w'.

Fixpoint uint64_nolex (fuel : nat) (a : anon_uint64_t) (f : list Z) (w : world)
  : outcome (list Z * anon_uint64_t * world) :=
  match f with
  | [] => Return ([], a, w)
  | num :: rest =>
      do (_, anum, a', w') <- anon_uint64_map fuel a num w;
      do (out, a'', w'') <- uint64_nolex fuel a' rest w';
      Return (anum :: out, a'', w'')
  end.

(** [cmd_uint64] from the point where [getopt] is done: [lflag] tells whether
    [-l] was given and [argv] is the argument vector after
    [argv += optind], that is the positional arguments.  What runs before
    that point is not part of this function: [anon_key_new] and
    [anon_key_set_random], which make the key that the command never hands
    to the mapper, and the option loop; so the [world] given here is the
    environment as those calls left it. *)
Definition cmd_uint64 (fuel : nat) (lflag : bool) (argv : list string)
    (fs : filesystem) (w : world) : outcome (cmd_status * world) :=
  match argv with
  | argv0 :: argv1 :: _ :: _ =>
      match sscanf_u64 argv0 with
      | None => Return (Exit EXIT_FAILURE, w)
      | Some lower =>
          match sscanf_u64 argv1 with
          | None => Return (Exit EXIT_FAILURE, w)
          | Some upper =>
              match fs argv1 with
              | None => Return (Exit EXIT_FAILURE, w)
              | Some f =>
                  do (a, w1) <- anon_uint64_new lower upper w;
                  match a with
                  | None => Return (Exit EXIT_FAILURE, w1)
                  | Some a0 =>
                      do (out, _, w2) <-
                        (if lflag then uint64_lex fuel a0 f w1
                         else uint64_nolex fuel a0 f w1);
                      Return (Done argv1 out, w2)
                  end
              end
          end
      end
  | _ => Return (Exit EXIT_FAILURE, w)
  end.

(** ** Predicates used in the statements *)

(** What [list_insert] does to a descending list. *)
Inductive list_insert_spec (l : list Z) (num : Z) (w : world) : Z * list Z * world -> Prop :=
| inserted_present :
    num ∈ l -> list_insert_spec l num w (1, l, w)
| inserted_fresh l' :
    num ∉ l -> heap w (malloc_calls w) = true ->
    descending l' -> (forall x, x ∈ l' <-> x = num \/ x ∈ l) ->
    length l' = S (length l) ->
    list_insert_spec l num w (0, l', snd (malloc w))
| inserted_nomem :
    num ∉ l -> heap w (malloc_calls w) = false ->
    list_insert_spec l num w (-1, l, snd (malloc w)).

Definition within (lower upper : Z) (l : list Z) : Prop :=
  Forall (fun x => lower <= x <= upper) l.

Record invariant (lower upper : Z) (a : anon_uint64_t) : Prop := {
  inv_lower : a_lower a = lower;
  inv_upper : a_upper a = upper;
  inv_range : a_range a = wrap64 (upper - lower + 1);
  inv_bounds : is_uint64 lower /\ is_uint64 upper /\ lower <= upper;
  inv_list : descending (a_list a);
  inv_table : forall k v, a_hash_table a !! k = Some v -> lower <= v <= upper;
  inv_init : a_state a = INIT -> a_hash_table a = ∅;
  inv_lex : a_state a = LEX -> increasing (a_hash_table a)
}.

(** The table entries made so far lie above everything still to be paired. *)
Definition above (t : gmap Z Z) (p q : list Z) : Prop :=
  forall k v, t !! k = Some v ->
    Forall (fun x => x < k) p /\ Forall (fun y => y < v) q.

(** *** Sample environments *)

(** Every allocation succeeds and the [n]-th draw is [rnd n]. *)
Definition world_of (rnd : nat -> Z) : world :=
  {| rand_stream := rnd; rand_calls := 0; heap := fun _ => true; malloc_calls := 0 |}.

(** The environment after [r] draws and [m] allocations. *)
Definition advance (w : world) (r m : nat) : world :=
  {| rand_stream := rand_stream w; rand_calls := r; heap := heap w; malloc_calls := m |}.

(** The draws are 0, 1, 2, ... *)
Definition counting_world : world := world_of Z.of_nat.

(** The draws are those of the list, then 0 for ever. *)
Definition stream_of (draws : list Z) : nat -> Z := fun n => nth n draws 0.

(** A stream that runs through 0, 1, ..., [k - 1] again and again. *)
Definition cycling_world (k : Z) : world := world_of (fun n => Z.of_nat n mod k).

(** *** Sample runs *)

(** [anon_uint64_new lower upper] followed by [anon_uint64_set_used] on each
    number of [used]. *)
Definition new_with_used (lower upper : Z) (used : list Z) (w : world)
  : outcome (option anon_uint64_t * world) :=
  do (a, w0) <- anon_uint64_new lower upper w;
  match a with
  | None => Return (None, w0)
  | Some a0 => do (a1, w1) <- mark_used a0 used w0; Return (Some a1, w1)
  end.

(** [anon_uint64_new], [anon_uint64_set_key], then [anon_uint64_map] on each
    input in turn: the outputs, and the environment left behind. *)
Definition keyed_run (fuel : nat) (key : anon_key_t) (lower upper : Z)
    (inputs : list Z) (w : world) : outcome (list Z * world) :=
  do (a, w0) <- anon_uint64_new lower upper w;
  match a with
  | None => Return ([], w0)
  | Some a0 =>
      do (out, _, w1) <- uint64_nolex fuel (anon_uint64_set_key a0 key) inputs w0;
      Return (out, w1)
  end.

(** Scenario 3 of the specification: bounds 0 and 99, inputs 5 and 7; the
    draws are 1234567, 2469134, 3703701, ..., that is 67, 34, 1, ... in the
    range. *)
Definition scenario3_world : world := world_of (fun n => 1234567 * (Z.of_nat n + 1)).

Definition scenario3_object : anon_uint64_t :=
  {| a_hash_table := ∅; a_list := []; a_state := INIT;
     a_lower := 0; a_upper := 99; a_range := 100 |}.

Definition scenario3_started : world := advance scenario3_world 0 1.

Definition scenario3_mapped5 : anon_uint64_t :=
  {| a_hash_table := {[ 5 := 67 ]}; a_list := [67]; a_state := NON_LEX;
     a_lower := 0; a_upper := 99; a_range := 100 |}.

Definition scenario3_world5 : world := advance scenario3_world 1 3.

Definition scenario3_mapped7 : anon_uint64_t :=
  {| a_hash_table := <[ 7 := 34 ]> {[ 5 := 67 ]}; a_list := [67; 34]; a_state := NON_LEX;
     a_lower := 0; a_upper := 99; a_range := 100 |}.

Definition scenario3_world7 : world := advance scenario3_world 2 5.

(** Scenario 4 of the specification: bounds 0 and 9, used numbers 3, 8, 1.
    The draws 13, 23, 40, 7 give 3, 3 again (drawn anew), 0 and 7. *)
Definition scenario4_world : world := world_of (stream_of [13; 23; 40; 7]).

Definition scenario4_used : anon_uint64_t :=
  {| a_hash_table := ∅; a_list := [8; 3; 1]; a_state := INIT;
     a_lower := 0; a_upper := 9; a_range := 10 |}.

Definition scenario4_world_used : world := advance scenario4_world 0 4.

Definition scenario4_final : anon_uint64_t :=
  {| a_hash_table := <[ 1 := 0 ]> (<[ 3 := 3 ]> {[ 8 := 7 ]}); a_list := [];
     a_state := LEX; a_lower := 0; a_upper := 9; a_range := 10 |}.

Definition scenario4_world_final : world := advance scenario4_world 4 10.

(** Scenario 5 of the specification: bounds 0 and 9, used numbers 0 to 10. *)
Definition scenario5_world : world := cycling_world 10.

Definition scenario5_used : anon_uint64_t :=
  {| a_hash_table := ∅; a_list := [10; 9; 8; 7; 6; 5; 4; 3; 2; 1; 0]; a_state := INIT;
     a_lower := 0; a_upper := 9; a_range := 10 |}.

Definition scenario5_world_used : world := advance scenario5_world 0 12.

(** Bounds 0 and 1: the inputs 5 and 6 use up the range. *)
Definition exhausted_start : anon_uint64_t :=
  {| a_hash_table := ∅; a_list := []; a_state := INIT;
     a_lower := 0; a_upper := 1; a_range := 2 |}.

Definition exhausted_half : anon_uint64_t :=
  {| a_hash_table := {[ 5 := 0 ]}; a_list := [0]; a_state := NON_LEX;
     a_lower := 0; a_upper := 1; a_range := 2 |}.

Definition exhausted_object : anon_uint64_t :=
  {| a_hash_table := <[ 6 := 1 ]> {[ 5 := 0 ]}; a_list := [1; 0]; a_state := NON_LEX;
     a_lower := 0; a_upper := 1; a_range := 2 |}.

(** The object that [anon_uint64_new 0 UINT64_MAX] makes. *)
Definition whole_object : anon_uint64_t :=
  {| a_hash_table := ∅; a_list := []; a_state := INIT;
     a_lower := 0; a_upper := UINT64_MAX; a_range := 0 |}.

(** A directory that holds the file ids.txt with the numbers 5, 5, 7 and
    nothing else. *)
Definition only_ids : filesystem :=
  fun name => if String.eqb name "ids.txt" then Some [5; 5; 7] else None.

(** The same with a second file, named 99, that holds 1, 2, 3. *)
Definition ids_and_99 : filesystem :=
  fun name =>
    if String.eqb name "ids.txt" then Some [5; 5; 7]
    else if String.eqb name "99" then Some [1; 2; 3]
    else None.

(** *** Further predicates *)

(** No two numbers share a hash. *)
Definition injective_table (t : gmap Z Z) : Prop :=
  forall k1 k2 v, t !! k1 = Some v -> t !! k2 = Some v -> k1 = k2.

(** Outside lex mode the list holds every hash of the table, and the table
    is injective. *)
Definition issued (a : anon_uint64_t) : Prop :=
  a_state a <> LEX ->
  (forall k v, a_hash_table a !! k = Some v -> v ∈ a_list a)
  /\ injective_table (a_hash_table a).

(** ** [trim] (src/anon.c) *)

(** What the loop
    [for (e = s + strlen(s)-1; e > s && isspace( *e); e--) *e = 0;]
    leaves of the characters after the first one: the white space at the
    end is cut off. *)
Fixpoint chop_spaces (s : string) : string :=
  match s with
  | EmptyString => EmptyString
  | String c rest =>
      match chop_spaces rest with
      | EmptyString => if is_space c then EmptyString else String c EmptyString
      | rest' => String c rest'
      end
  end.

(** The same loop on the whole of [s]: [e > s] keeps the first character. *)
Definition trim_tail (s : string) : string :=
  match s with
  | EmptyString => EmptyString
  | String c rest => String c (chop_spaces rest)
  end.

(** [trim]: the [int] returned and the string left in [buffer]; [None] is
    the NULL pointer.  The first loop moves [s] past the white space at the
    front, the [memmove] brings what the second loop left to the front of
    the buffer.  Characters are in the range of [isspace] (no negative
    [char]); on an empty string the code forms the pointer [s - 1], which
    it neither reads nor writes. *)
Definition trim (buffer : option string) : Z * option string :=
  match buffer with
  | None => (0, None)
  | Some b => (1, Some (trim_tail (skip_space b)))
  end.

Fixpoint all_space (s : string) : bool :=
  match s with
  | EmptyString => true
  | String c rest => is_space c && all_space rest
  end.

Definition head_is_space (s : string) : bool :=
  match s with
  | EmptyString => false
  | String c _ => is_space c
  end.

Fixpoint last_is_space (s : string) : bool :=
  match s with
  | EmptyString => false
  | String c EmptyString => is_space c
  | String _ rest => last_is_space rest
  end.

(** *** Further sample objects *)

(** A number marked before the first [anon_uint64_map] is not given out:
    bounds 0 and 1, the number 0 marked, then the input 5 mapped with the
    draws 0, 1, 0, 1, ... *)
Definition marked_first : anon_uint64_t := set_list exhausted_start [0].

Definition marked_then_mapped : anon_uint64_t :=
  {| a_hash_table := {[ 5 := 1 ]}; a_list := [1; 0]; a_state := NON_LEX;
     a_lower := 0; a_upper := 1; a_range := 2 |}.

(** Scenario 4 from the start: the object that [anon_uint64_new 0 9] makes. *)
Definition scenario4_fresh : anon_uint64_t :=
  {| a_hash_table := ∅; a_list := []; a_state := INIT;
     a_lower := 0; a_upper := 9; a_range := 10 |}.

(** Every draw is 0, as it is when every [RAND_bytes] call fails and leaves
    the zeroed buffer alone; scenario 5 in this environment. *)
Definition constant_world : world := world_of (fun _ => 0).

Definition scenario5_stuck_world : world := advance constant_world 0 12.

(** * Properties *)

(** ** Arithmetic of [uint64_t] *)

Lemma wrap64_small z : is_uint64 z -> wrap64 z = z.
Proof. unfold is_uint64, wrap64. intros H. apply Z.mod_small. exact H. Qed.

Lemma wrap64_is_uint64 z : is_uint64 (wrap64 z).
Proof. unfold is_uint64, wrap64, UINT64_MOD. apply Z.mod_pos_bound. lia. Qed.

(** The stored range is the size of the interval, except for the whole of
    [uint64_t], where it wraps to zero. *)
Lemma range_cases lower upper :
  is_uint64 lower -> is_uint64 upper -> lower <= upper ->
  (wrap64 (upper - lower + 1) = upper - lower + 1 /\ upper - lower + 1 < UINT64_MOD)
  \/ (wrap64 (upper - lower + 1) = 0 /\ lower = 0 /\ upper = UINT64_MAX).
Proof.
  unfold is_uint64, UINT64_MAX. intros Hl Hu Hle.
  destruct (Z.eq_dec (upper - lower + 1) UINT64_MOD) as [E | NE].
  - right. split; [ | lia ]. unfold wrap64. rewrite E. apply Z_mod_same_full.
  - left. split; [ | lia ]. apply wrap64_small. unfold is_uint64. lia.
Qed.

Lemma range_nonzero lower upper :
  is_uint64 lower -> is_uint64 upper -> lower <= upper ->
  ~ (lower = 0 /\ upper = UINT64_MAX) ->
  wrap64 (upper - lower + 1) <> 0.
Proof.
  intros Hl Hu Hle Hfull.
  destruct (range_cases lower upper Hl Hu Hle) as [[E _] | [_ F]]; [ lia | tauto ].
Qed.

(** ** The sorted list *)

Lemma descending_nil : descending [].
Proof. constructor. Qed.

Lemma descending_cons x l :
  descending (x :: l) <-> descending l /\ Forall (fun y => y < x) l.
Proof.
  unfold descending. split.
  - intros H. inversion H as [ | ? ? Hs Hf ]; subst. split; [ exact Hs | ].
    eapply Forall_impl; [ exact Hf | ]. simpl. intros; lia.
  - intros [Hs Hf]. constructor; [ exact Hs | ].
    eapply Forall_impl; [ exact Hf | ]. simpl. intros; lia.
Qed.

Lemma descending_NoDup l : descending l -> NoDup l.
Proof.
  induction l as [ | x l IH ]; intros H.
  - constructor.
  - apply descending_cons in H as [Hs Hf]. constructor; [ | auto ].
    intros Hin. rewrite Forall_forall in Hf. specialize (Hf x Hin). lia.
Qed.

Lemma list_search_split l num before after :
  list_search l num = Some (before, after) ->
  l = before ++ after /\ Forall (fun x => num < x) before /\ (num ∉ before) /\
  match after with [] => True | y :: _ => y < num end.
Proof.
  revert before after. induction l as [ | p next IH ]; intros before after; simpl.
  - intros [= <- <-]. repeat split; [ constructor | apply not_elem_of_nil ].
  - destruct (Z.eqb_spec num p) as [ -> | Hne ]; [ discriminate | ].
    destruct (Z.ltb_spec p num) as [ Hlt | Hge ].
    + intros [= <- <-]. repeat split; [ constructor | apply not_elem_of_nil | exact Hlt ].
    + destruct (list_search next num) as [ [b a] | ] eqn:E; [ | discriminate ].
      intros [= <- <-]. destruct (IH b a eq_refl) as (-> & Hb & Hnb & Ha).
      repeat split; [ constructor; [ lia | exact Hb ] | | exact Ha ].
      rewrite not_elem_of_cons. split; [ exact Hne | exact Hnb ].
Qed.

Lemma list_search_found l num :
  list_search l num = None -> num ∈ l.
Proof.
  induction l as [ | p next IH ]; simpl; [ discriminate | ].
  destruct (Z.eqb_spec num p) as [ -> | Hne ]; [ intros _; apply list_elem_of_here | ].
  destruct (Z.ltb_spec p num); [ discriminate | ].
  destruct (list_search next num) as [ [b a] | ]; [ discriminate | ].
  intros _. apply list_elem_of_further. auto.
Qed.

(** On a descending list the walk stops where everything ahead is smaller. *)
Lemma list_search_after l num before after :
  descending l -> list_search l num = Some (before, after) ->
  Forall (fun x => x < num) after.
Proof.
  intros Hd Hs. destruct (list_search_split _ _ _ _ Hs) as (-> & _ & _ & Ha).
  destruct after as [ | y rest ]; [ constructor | ].
  unfold descending in Hd. apply StronglySorted_app in Hd as (_ & _ & Hd).
  apply descending_cons in Hd as [_ Hf]. constructor; [ exact Ha | ].
  eapply Forall_impl; [ exact Hf | ]. simpl. intros; lia.
Qed.

Lemma list_search_missing l num before after :
  descending l -> list_search l num = Some (before, after) -> num ∉ l.
Proof.
  intros Hd Hs. pose proof (list_search_after _ _ _ _ Hd Hs) as Ha.
  destruct (list_search_split _ _ _ _ Hs) as (-> & _ & Hnb & _).
  rewrite elem_of_app. intros [ Hin | Hin ]; [ tauto | ].
  rewrite Forall_forall in Ha. specialize (Ha num Hin). lia.
Qed.

Lemma descending_link before after num :
  descending (before ++ after) ->
  Forall (fun x => num < x) before -> Forall (fun x => x < num) after ->
  descending (before ++ num :: after).
Proof.
  unfold descending. intros Hd Hb Ha.
  apply StronglySorted_app in Hd as (Hba & Hsb & Hsa).
  apply StronglySorted_app. split; [ | split; [ exact Hsb | ] ].
  - intros x y Hx Hy. apply elem_of_cons in Hy as [ -> | Hy ].
    + rewrite Forall_forall in Hb. specialize (Hb x Hx). lia.
    + apply Hba; assumption.
  - apply descending_cons. split; [ exact Hsa | exact Ha ].
Qed.

Lemma list_insert_descending l num w :
  descending l -> list_insert_spec l num w (list_insert l num w).
Proof.
  intros Hd. unfold list_insert.
  destruct (list_search l num) as [ [before after] | ] eqn:Hs.
  - pose proof (list_search_missing _ _ _ _ Hd Hs) as Hnot.
    pose proof (list_search_after _ _ _ _ Hd Hs) as Ha.
    destruct (list_search_split _ _ _ _ Hs) as (El & Hb & _ & _).
    unfold malloc at 1. destruct (heap w (malloc_calls w)) eqn:Hh.
    + apply inserted_fresh; [ exact Hnot | exact Hh | | | ].
      * apply descending_link; [ rewrite <- El; exact Hd | exact Hb | exact Ha ].
      * intros x. rewrite El, !elem_of_app, elem_of_cons. tauto.
      * rewrite El, !length_app. simpl. lia.
    + apply inserted_nomem; assumption.
  - apply inserted_present. apply list_search_found. exact Hs.
Qed.

(** The same, as the two ways the caller's loop can go. *)
Lemma list_insert_cases l num w :
  descending l ->
  (num ∈ l /\ list_insert l num w = (1, l, w))
  \/ ((num ∉ l) /\ exists r l', r <> 1 /\ list_insert l num w = (r, l', snd (malloc w))).
Proof.
  intros Hd. pose proof (list_insert_descending l num w Hd) as Hspec.
  destruct (list_insert l num w) as [[r l'] w'].
  inversion Hspec as [ Hin | l0 Hnot Hh Hd' Hel Hlen | Hnot Hh ].
  - left. auto.
  - right. split; [ exact Hnot | ]. exists 0, l'. split; [ lia | reflexivity ].
  - right. split; [ exact Hnot | ]. exists (-1), l'. split; [ lia | reflexivity ].
Qed.

(** ** What holds of every object *)

(** Case analysis on a bind that returned. *)
Ltac bind_inv H :=
  match type of H with
  | obind ?m _ = Return _ =>
      let E := fresh "E" in
      destruct m as [ ? | | | ] eqn:E; simpl in H; [ | discriminate H .. ]
  end.

Lemma state_eqb_eq s t : state_eqb s t = true <-> s = t.
Proof. destruct s, t; simpl; split; congruence. Qed.

Lemma generate_random_number_range lower upper a w anum w' :
  is_uint64 lower -> is_uint64 upper -> lower <= upper ->
  a_lower a = lower -> a_range a = wrap64 (upper - lower + 1) ->
  generate_random_number a w = Return (anum, w') ->
  lower <= anum <= upper.
Proof.
  intros Hl Hu Hle El Er. unfold generate_random_number, RAND_bytes.
  destruct (Z.eqb_spec (a_range a) 0) as [ | Hnz ]; [ discriminate | ].
  intros [= <- _]. rewrite El.
  destruct (range_cases lower upper Hl Hu Hle) as [ [E Hlt] | [E _] ]; [ | congruence ].
  rewrite Er, E in *.
  assert (0 <= wrap64 (rand_stream w (rand_calls w)) mod (upper - lower + 1)
          < upper - lower + 1) as Hm by (apply Z.mod_pos_bound; lia).
  rewrite wrap64_small; [ lia | ]. unfold is_uint64 in *. lia.
Qed.

Section Finalization.
Variables lower upper : Z.
Variable a : anon_uint64_t.
Hypothesis Hlower : is_uint64 lower.
Hypothesis Hupper : is_uint64 upper.
Hypothesis Hle : lower <= upper.
Hypothesis El : a_lower a = lower.
Hypothesis Er : a_range a = wrap64 (upper - lower + 1).

Lemma draw_hash_sound fuel hashlist w hashlist' w' :
  descending hashlist -> within lower upper hashlist ->
  draw_hash fuel a hashlist w = Return (hashlist', w') ->
  descending hashlist' /\ within lower upper hashlist' /\
  (length hashlist' <= S (length hashlist))%nat.
Proof.
  revert hashlist w. induction fuel as [ | fuel IH ]; intros hashlist w Hd Hw; simpl.
  - discriminate.
  - intros H. bind_inv H. destruct x as [anum w1].
    pose proof (generate_random_number_range _ _ _ _ _ _ Hlower Hupper Hle El Er E) as Hr.
    destruct (list_insert_descending hashlist anum w1 Hd) as [ Hin | l' Hnot Hh Hd' Hel Hlen | Hnot Hh ];
      simpl in H.
    + apply IH in H as (? & ? & ?); auto.
    + injection H as <- <-. split; [ exact Hd' | ]. split; [ | lia ].
      unfold within in *. rewrite Forall_forall in *. intros x Hx.
      apply Hel in Hx as [ -> | Hx ]; [ exact Hr | auto ].
    + injection H as <- <-. auto.
Qed.

Lemma populate_hashlist_sound fuel p count hashlist w hashlist' w' :
  descending hashlist -> within lower upper hashlist ->
  populate_hashlist fuel a p count hashlist w = Return (hashlist', w') ->
  descending hashlist' /\ within lower upper hashlist' /\
  (length hashlist' <= length hashlist + length p)%nat.
Proof.
  revert count hashlist w. induction p as [ | pnum next IH ]; intros count hashlist w Hd Hw; simpl.
  - intros [= <- <-]. split; [ exact Hd | ]. split; [ exact Hw | lia ].
  - destruct (count =? INT_MAX); [ discriminate | ].
    destruct (wrap64 (a_upper a - a_lower a + 1) <? count + 1); [ discriminate | ].
    intros H. bind_inv H. destruct x as [hl1 w1].
    apply draw_hash_sound in E as (Hd1 & Hw1 & Hlen1); [ | assumption .. ].
    apply IH in H as (Hd2 & Hw2 & Hlen2); [ | assumption .. ].
    split; [ exact Hd2 | ]. split; [ exact Hw2 | lia ].
Qed.
End Finalization.

Lemma assign_hashes_sound lower upper p q t w t' w' :
  descending p -> descending q -> within lower upper q ->
  increasing t -> above t p q ->
  (forall k v, t !! k = Some v -> lower <= v <= upper) ->
  assign_hashes p q t w = Return (t', w') ->
  increasing t' /\ (forall k v, t' !! k = Some v -> lower <= v <= upper) /\
  (length p <= length q)%nat.
Proof.
  revert q t w. induction p as [ | pnum pnext IH ]; intros q t w Hp Hq Hw Hinc Hab Hval; simpl.
  - intros [= <- <-]. split; [ exact Hinc | ]. split; [ exact Hval | lia ].
  - destruct (heap w (malloc_calls w)); simpl; [ | discriminate ].
    destruct q as [ | qnum qnext ]; [ discriminate | ].
    apply descending_cons in Hp as [Hp Hpf]. apply descending_cons in Hq as [Hq Hqf].
    unfold within in Hw. apply Forall_cons in Hw as [Hwq Hw].
    intros H. apply IH in H as (Hi & Hv & Hlen); try assumption.
    + split; [ exact Hi | ]. split; [ exact Hv | simpl; lia ].
    + unfold increasing, lh_insert. intros k1 k2 v1 v2 H1 H2 Hlt.
      rewrite lookup_insert in H1, H2.
      destruct (decide (pnum = k1)) as [ <- | N1 ]; destruct (decide (pnum = k2)) as [ <- | N2 ].
      * lia.
      * injection H1 as <-. destruct (Hab _ _ H2) as [_ Hf].
        apply Forall_cons in Hf as [Hf _]. exact Hf.
      * destruct (Hab _ _ H1) as [Hf _]. apply Forall_cons in Hf as [Hf _]. lia.
      * eapply Hinc; eassumption.
    + unfold above, lh_insert. intros k v Hk. rewrite lookup_insert in Hk.
      destruct (decide (pnum = k)) as [ <- | N ].
      * injection Hk as <-. split; assumption.
      * destruct (Hab _ _ Hk) as [Hf1 Hf2].
        apply Forall_cons in Hf1 as [_ Hf1]. apply Forall_cons in Hf2 as [_ Hf2]. split; assumption.
    + unfold lh_insert. intros k v Hk. rewrite lookup_insert in Hk.
      destruct (decide (pnum = k)) as [ <- | N ]; [ | eauto ].
      injection Hk as <-. exact Hwq.
Qed.

Lemma increasing_empty : increasing ∅.
Proof. intros k1 k2 v1 v2 H. rewrite lookup_empty in H. discriminate. Qed.

Lemma above_empty p q : above ∅ p q.
Proof. intros k v H. rewrite lookup_empty in H. discriminate. Qed.

Lemma set_state_invariant lower upper fuel a s w r a' w' :
  invariant lower upper a ->
  anon_uint64_set_state fuel a s w = Return (r, a', w') ->
  invariant lower upper a' /\ r = 0 /\
  match s with
  | INIT => a' = a
  | NON_LEX => a_state a' = NON_LEX /\ a_hash_table a' = a_hash_table a
               /\ a_list a' = a_list a
  | LEX => a_state a' = LEX
  end.
Proof.
  intros I. destruct s; simpl.
  - intros [= <- <- <-]. auto.
  - destruct (state_eqb (a_state a) NON_LEX) eqn:Es.
    + apply state_eqb_eq in Es. intros [= <- <- <-]. auto.
    + destruct (state_eqb (a_state a) INIT) eqn:Ei; simpl; [ | discriminate ].
      apply state_eqb_eq in Ei. intros [= <- <- <-].
      split; [ | auto ]. destruct I. constructor; simpl; try assumption.
      * discriminate.
      * discriminate.
  - destruct (state_eqb (a_state a) LEX) eqn:Es.
    + apply state_eqb_eq in Es. intros [= <- <- <-]. auto.
    + destruct (state_eqb (a_state a) INIT) eqn:Ei; simpl; [ | discriminate ].
      apply state_eqb_eq in Ei. intros H.
      bind_inv H. destruct x as [hashlist w1].
      bind_inv H. destruct x as [t w2]. injection H as <- <- <-.
      destruct I as [Il Iu Ir Ib Ilist Itab Iinit Ilex].
      pose proof Ib as (Hl & Hu & Hle).
      apply (populate_hashlist_sound lower upper) in E as (Hd & Hw & _);
        try assumption; [ | constructor | constructor ].
      simpl in E0. rewrite (Iinit Ei) in E0.
      apply (assign_hashes_sound lower upper) in E0 as (Hinc & Hval & _);
        try assumption;
        [ | apply increasing_empty | apply above_empty
          | intros k v Hk; rewrite lookup_empty in Hk; discriminate ].
      split; [ | auto ]. constructor; simpl; try assumption.
      * constructor.
      * discriminate.
      * intros _. exact Hinc.
Qed.

Lemma new_invariant lower upper w a w' :
  is_uint64 lower -> is_uint64 upper ->
  anon_uint64_new lower upper w = Return (Some a, w') ->
  invariant lower upper a /\ a_state a = INIT /\ a_list a = [].
Proof.
  intros Hl Hu. unfold anon_uint64_new.
  destruct (Z.leb_spec lower upper) as [ Hle | ]; simpl; [ | discriminate ].
  destruct (heap w (malloc_calls w)); simpl; [ | discriminate ].
  intros [= <- _]. split; [ | auto ].
  constructor; simpl; auto.
  - constructor.
  - intros k v H. rewrite lookup_empty in H. discriminate.
  - intros _. apply increasing_empty.
Qed.

Lemma set_used_invariant lower upper a num w r a' w' :
  invariant lower upper a ->
  anon_uint64_set_used a num w = Return (r, a', w') ->
  invariant lower upper a' /\ a_state a' = a_state a /\
  a_hash_table a' = a_hash_table a.
Proof.
  intros I. unfold anon_uint64_set_used. simpl.
  destruct I as [Il Iu Ir Ib Ilist Itab Iinit Ilex].
  assert (forall r0 l0 w0, list_insert (a_list a) num w = (r0, l0, w0) -> descending l0) as Hd.
  { intros r0 l0 w0 E. pose proof (list_insert_descending (a_list a) num w Ilist) as Hspec.
    rewrite E in Hspec. inversion Hspec; subst; assumption. }
  destruct (list_insert (a_list a) num w) as [[r0 l0] w0] eqn:E.
  specialize (Hd _ _ _ eq_refl).
  intros H.
  assert (a' = set_list a l0) as -> by (destruct (0 <=? r0); congruence).
  split; [ | auto ]. constructor; simpl; assumption.
Qed.

Lemma draw_fresh_sound lower upper a fuel l w anum l' w' :
  is_uint64 lower -> is_uint64 upper -> lower <= upper ->
  a_lower a = lower -> a_range a = wrap64 (upper - lower + 1) ->
  descending l ->
  draw_fresh fuel a l w = Return (anum, l', w') ->
  descending l' /\ lower <= anum <= upper /\ (anum ∉ l) /\ anum ∈ l'.
Proof.
  intros Hl Hu Hle El Er. revert l w.
  induction fuel as [ | fuel IH ]; intros l w Hd; simpl; [ discriminate | ].
  intros H. bind_inv H. destruct x as [cand w1].
  pose proof (generate_random_number_range _ _ _ _ _ _ Hl Hu Hle El Er E) as Hr.
  destruct (list_insert_descending l cand w1 Hd) as [ Hin | l1 Hnot Hh Hd' Hel Hlen | Hnot Hh ];
    simpl in H.
  - apply IH in H; assumption.
  - injection H as <- <- <-. repeat split; try assumption; try tauto.
    apply Hel. left. reflexivity.
  - discriminate.
Qed.

Lemma map_invariant lower upper fuel a num w r anum a' w' :
  invariant lower upper a ->
  anon_uint64_map fuel a num w = Return (r, anum, a', w') ->
  invariant lower upper a' /\ r = 0 /\ a_state a' = NON_LEX /\
  a_hash_table a' !! num = Some anum /\
  (forall k v, a_hash_table a !! k = Some v -> a_hash_table a' !! k = Some v).
Proof.
  intros I. unfold anon_uint64_map. intros H.
  bind_inv H. destruct x as [[r0 a1] w1].
  apply (set_state_invariant lower upper) in E as (I1 & -> & Es & Et & Elist); [ | exact I ].
  unfold lh_retrieve in H. destruct (a_hash_table a1 !! num) as [ hash | ] eqn:Eh.
  - injection H as <- <- <- <-. rewrite <- Et. auto.
  - bind_inv H. destruct x as [[cand l] w2].
    destruct (heap w2 (malloc_calls w2)); simpl in H; [ | discriminate ].
    injection H as <- <- <- <-.
    destruct I1 as [Il Iu Ir Ib Ilist Itab Iinit Ilex].
    pose proof Ib as (Hl & Hu & Hle).
    apply (draw_fresh_sound lower upper) in E as (Hd & Hr & _ & _); try assumption.
    unfold lh_insert. simpl.
    split; [ | split; [ reflexivity | split; [ exact Es | split ] ] ].
    + constructor; simpl; try assumption; try tauto.
      * intros k v Hk. rewrite lookup_insert in Hk.
        destruct (decide (num = k)); [ congruence | eauto ].
      * congruence.
      * congruence.
    + apply lookup_insert_eq.
    + intros k v Hk. rewrite Et in Eh. rewrite lookup_insert_ne; [ congruence | congruence ].
Qed.

Lemma map_lex_invariant lower upper fuel a num w r anum a' w' :
  invariant lower upper a ->
  anon_uint64_map_lex fuel a num w = Return (r, anum, a', w') ->
  invariant lower upper a' /\ r = 0 /\ a_state a' = LEX /\
  a_hash_table a' !! num = Some anum.
Proof.
  intros I. unfold anon_uint64_map_lex. intros H.
  bind_inv H. destruct x as [[r0 a1] w1].
  apply (set_state_invariant lower upper) in E as (I1 & -> & Es); [ | exact I ].
  unfold lh_retrieve in H. destruct (a_hash_table a1 !! num) as [ hash | ] eqn:Eh;
    [ | discriminate ].
  injection H as <- <- <- <-. auto.
Qed.

Lemma call_step_invariant lower upper a a' :
  invariant lower upper a -> call_step a a' -> invariant lower upper a'.
Proof.
  intros I S. destruct S as [ a key | a num w r a' w' H | fuel a num w r anum a' w' H
                            | fuel a num w r anum a' w' H ].
  - exact I.
  - apply (set_used_invariant lower upper) in H; tauto.
  - apply (map_invariant lower upper) in H; tauto.
  - apply (map_lex_invariant lower upper) in H; tauto.
Qed.

Lemma reachable_invariant lower upper a :
  reachable lower upper a -> invariant lower upper a.
Proof.
  intros (Hl & Hu & w & a0 & w0 & Hnew & Hsteps).
  apply new_invariant in Hnew as (I & _ & _); [ | assumption .. ].
  induction Hsteps as [ | x y z Hxy _ IH ]; [ exact I | ].
  apply IH. eapply call_step_invariant; eassumption.
Qed.

Lemma reachable_step lower upper a a' :
  reachable lower upper a -> call_step a a' -> reachable lower upper a'.
Proof.
  intros (Hl & Hu & w & a0 & w0 & Hnew & Hsteps) S.
  split; [ exact Hl | ]. split; [ exact Hu | ].
  exists w, a0, w0. split; [ exact Hnew | ].
  eapply rtc_r; eassumption.
Qed.

(** ** What the calls leave alone *)

Lemma set_used_frame a num w r a' w' :
  anon_uint64_set_used a num w = Return (r, a', w') ->
  a_state a' = a_state a /\ a_hash_table a' = a_hash_table a.
Proof.
  unfold anon_uint64_set_used. simpl.
  destruct (list_insert (a_list a) num w) as [[r0 l0] w0].
  destruct (0 <=? r0); intros [= _ <- _]; auto.
Qed.

Lemma set_state_NON_LEX fuel a w r a' w' :
  anon_uint64_set_state fuel a NON_LEX w = Return (r, a', w') ->
  a_state a <> LEX /\ a_state a' = NON_LEX /\
  a_hash_table a' = a_hash_table a /\ a_list a' = a_list a /\ w' = w.
Proof.
  simpl. destruct (a_state a) eqn:Es; simpl; try discriminate;
    intros [= _ <- <-]; simpl; repeat split; congruence.
Qed.

Lemma map_frame fuel a num w r anum a' w' :
  anon_uint64_map fuel a num w = Return (r, anum, a', w') ->
  r = 0 /\ a_state a <> LEX /\ a_state a' = NON_LEX /\
  a_hash_table a' !! num = Some anum /\
  (forall k v, a_hash_table a !! k = Some v -> a_hash_table a' !! k = Some v).
Proof.
  unfold anon_uint64_map. intros H. bind_inv H. destruct x as [[r0 a1] w1].
  apply set_state_NON_LEX in E as (Hs & Es & Et & _ & _).
  unfold lh_retrieve in H. destruct (a_hash_table a1 !! num) as [ hash | ] eqn:Eh.
  - injection H as <- <- <- <-. rewrite <- Et. auto.
  - bind_inv H. destruct x as [[cand l] w2].
    destruct (heap w2 (malloc_calls w2)); simpl in H; [ | discriminate ].
    injection H as <- <- <- <-. unfold lh_insert. simpl.
    repeat split; try assumption.
    + apply lookup_insert_eq.
    + intros k v Hk. rewrite lookup_insert_ne; congruence.
Qed.

(** Once in state [NON_LEX], an entry of the table stays as it is. *)
Lemma non_lex_entry_kept a a' num hash :
  a_state a = NON_LEX -> a_hash_table a !! num = Some hash ->
  rtc call_step a a' ->
  a_state a' = NON_LEX /\ a_hash_table a' !! num = Some hash.
Proof.
  intros Hs Ht Hsteps. induction Hsteps as [ | x y z Hxy _ IH ]; [ auto | ].
  destruct Hxy as [ a key | a n w r a' w' H | fuel a n w r anum a' w' H
                  | fuel a n w r anum a' w' H ].
  - auto.
  - apply set_used_frame in H as [E1 E2]. apply IH; congruence.
  - apply map_frame in H as (_ & _ & E1 & _ & E2). apply IH; auto.
  - exfalso. unfold anon_uint64_map_lex in H. simpl in H. rewrite Hs in H.
    simpl in H. discriminate.
Qed.

(** Once in state [LEX], the table is final. *)
Lemma lex_table_final a a' :
  a_state a = LEX -> rtc call_step a a' ->
  a_state a' = LEX /\ a_hash_table a' = a_hash_table a.
Proof.
  intros Hs Hsteps. induction Hsteps as [ | x y z Hxy _ IH ]; [ auto | ].
  destruct Hxy as [ a key | a n w r a' w' H | fuel a n w r anum a' w' H
                  | fuel a n w r anum a' w' H ].
  - auto.
  - apply set_used_frame in H as [E1 E2].
    destruct IH as [IH1 IH2]; [ congruence | ]. split; congruence.
  - apply map_frame in H as (_ & Hne & _). congruence.
  - unfold anon_uint64_map_lex in H. simpl in H. rewrite Hs in H. simpl in H.
    unfold lh_retrieve in H. destruct (a_hash_table a !! n); [ | discriminate ].
    injection H as _ _ <- _. auto.
Qed.

(** ** The sample runs stay within the interface *)

Lemma mark_used_steps a nums w a' w' :
  mark_used a nums w = Return (a', w') -> rtc call_step a a'.
Proof.
  revert a w. induction nums as [ | num rest IH ]; intros a w; simpl.
  - intros [= <- _]. apply rtc_refl.
  - intros H. bind_inv H. destruct x as [[r a1] w1].
    eapply rtc_l; [ eapply step_set_used; exact E | eapply IH; exact H ].
Qed.

Lemma new_with_used_reachable lower upper used w a w' :
  is_uint64 lower -> is_uint64 upper ->
  new_with_used lower upper used w = Return (Some a, w') ->
  reachable lower upper a.
Proof.
  intros Hl Hu H. unfold new_with_used in H. bind_inv H.
  destruct x as [[a0 | ] w0]; [ | discriminate ].
  bind_inv H. destruct x as [a1 w1]. injection H as <- <-.
  split; [ exact Hl | ]. split; [ exact Hu | ].
  exists w, a0, w0. split; [ exact E | ]. eapply mark_used_steps; exact E0.
Qed.

Lemma small_is_uint64 z : 0 <= z < 4294967296 -> is_uint64 z.
Proof. unfold is_uint64, UINT64_MOD. lia. Qed.

(** * The claims *)

(** ** Range containment *)

(** C6. Range containment: on an object made by [anon_uint64_new lower upper]
    (which asserts [lower <= upper]) and used through the interface, every
    output that [anon_uint64_map] or [anon_uint64_map_lex] returns lies in
    the inclusive interval from [lower] to [upper]. *)
Theorem range_containment lower upper a fuel num w r anum a' w' :
  reachable lower upper a ->
  anon_uint64_map fuel a num w = Return (r, anum, a', w') \/
  anon_uint64_map_lex fuel a num w = Return (r, anum, a', w') ->
  lower <= anum <= upper.
Proof.
  intros Hr H. pose proof (reachable_invariant _ _ _ Hr) as I.
  destruct H as [ H | H ].
  - apply (map_invariant lower upper) in H as (I' & _ & _ & Ht & _); [ | exact I ].
    exact (inv_table _ _ _ I' _ _ Ht).
  - apply (map_lex_invariant lower upper) in H as (I' & _ & _ & Ht); [ | exact I ].
    exact (inv_table _ _ _ I' _ _ Ht).
Qed.

Lemma scenario3_reachable : reachable 0 99 scenario3_object.
Proof.
  apply (new_with_used_reachable 0 99 [] scenario3_world scenario3_object
           scenario3_started).
  - apply small_is_uint64. lia.
  - apply small_is_uint64. lia.
  - reflexivity.
Defined.

Lemma scenario3_map5 :
  anon_uint64_map 1 scenario3_object 5 scenario3_started
  = Return (0, 67, scenario3_mapped5, scenario3_world5).
Proof. vm_compute. reflexivity. Defined.

Lemma range_containment_witness :
  anon_uint64_map 1 scenario3_object 5 scenario3_started
    = Return (0, 67, scenario3_mapped5, scenario3_world5)
  /\ 0 <= 67 <= 99.
Proof.
  split; [ exact scenario3_map5 | ].
  apply (range_containment 0 99 scenario3_object 1 5 scenario3_started
           0 67 scenario3_mapped5 scenario3_world5).
  - exact scenario3_reachable.
  - left. exact scenario3_map5.
Defined.

(** ** Idempotence of [anon_uint64_map] *)

(** C8. Idempotence of [anon_uint64_map]: once [anon_uint64_map] has
    returned [anum] for the input [num], then after any further returning
    calls on the same object a call of [anon_uint64_map] on [num] returns
    [anum] again, whatever the fuel and the environment, and leaves the
    object as it is. *)
Theorem map_idempotent fuel a num w r anum a1 w1 a2 :
  anon_uint64_map fuel a num w = Return (r, anum, a1, w1) ->
  rtc call_step a1 a2 ->
  forall fuel' w', anon_uint64_map fuel' a2 num w' = Return (0, anum, a2, w').
Proof.
  intros H Hsteps fuel' w'.
  apply map_frame in H as (_ & _ & Hs & Ht & _).
  destruct (non_lex_entry_kept _ _ _ _ Hs Ht Hsteps) as [Hs2 Ht2].
  unfold anon_uint64_map. simpl. rewrite Hs2. simpl.
  unfold lh_retrieve. rewrite Ht2. reflexivity.
Qed.

Lemma scenario3_map7 :
  anon_uint64_map 1 scenario3_mapped5 7 scenario3_world5
  = Return (0, 34, scenario3_mapped7, scenario3_world7).
Proof. vm_compute. reflexivity. Defined.

Lemma map_idempotent_witness :
  anon_uint64_map 1 scenario3_object 5 scenario3_started
    = Return (0, 67, scenario3_mapped5, scenario3_world5)
  /\ rtc call_step scenario3_mapped5 scenario3_mapped7
  /\ anon_uint64_map 0 scenario3_mapped7 5 scenario3_world7
    = Return (0, 67, scenario3_mapped7, scenario3_world7).
Proof.
  assert (rtc call_step scenario3_mapped5 scenario3_mapped7) as Hsteps.
  { eapply rtc_l; [ | apply rtc_refl ].
    eapply step_map. exact scenario3_map7. }
  split; [ exact scenario3_map5 | ]. split; [ exact Hsteps | ].
  exact (map_idempotent 1 scenario3_object 5 scenario3_started 0 67
           scenario3_mapped5 scenario3_world5 scenario3_mapped7
           scenario3_map5 Hsteps 0%nat scenario3_world7).
Defined.

(** ** Order preservation in lex mode *)

Lemma assign_hashes_keeps p q t w t' w' k :
  assign_hashes p q t w = Return (t', w') -> k ∉ p -> t' !! k = t !! k.
Proof.
  revert q t w. induction p as [ | pnum pnext IH ]; intros q t w; simpl.
  - intros [= <- _] _. reflexivity.
  - destruct (heap w (malloc_calls w)); simpl; [ | discriminate ].
    destruct q as [ | qnum qnext ]; [ discriminate | ].
    intros H Hk. apply not_elem_of_cons in Hk as [Hne Hk].
    rewrite (IH _ _ _ H Hk). unfold lh_insert. apply lookup_insert_ne. congruence.
Qed.

Lemma assign_hashes_keys p q t w t' w' k v :
  assign_hashes p q t w = Return (t', w') -> t' !! k = Some v ->
  t !! k = Some v \/ k ∈ p.
Proof.
  intros H Hk. destruct (decide (k ∈ p)) as [ Hin | Hnot ]; [ right; exact Hin | left ].
  rewrite <- (assign_hashes_keeps _ _ _ _ _ _ _ H Hnot). exact Hk.
Qed.

(** The node at position [i] of the used list gets the number at position
    [i] of the hash list. *)
Lemma assign_hashes_pairs p q t w t' w' :
  NoDup p -> assign_hashes p q t w = Return (t', w') ->
  forall i num, p !! i = Some num ->
    exists hash, q !! i = Some hash /\ t' !! num = Some hash.
Proof.
  revert q t w. induction p as [ | pnum pnext IH ]; intros q t w Hnd; simpl.
  - intros _ i num Hi. rewrite lookup_nil in Hi. discriminate.
  - destruct (heap w (malloc_calls w)); simpl; [ | discriminate ].
    destruct q as [ | qnum qnext ]; [ discriminate | ].
    apply NoDup_cons in Hnd as [Hfresh Hnd].
    intros H [ | i ] num Hi; simpl in Hi.
    + injection Hi as <-. exists qnum. split; [ reflexivity | ].
      rewrite (assign_hashes_keeps _ _ _ _ _ _ _ H Hfresh).
      unfold lh_insert. apply lookup_insert_eq.
    + exact (IH _ _ _ Hnd H i num Hi).
Qed.

Lemma assign_hashes_length p q t w t' w' :
  assign_hashes p q t w = Return (t', w') -> (length p <= length q)%nat.
Proof.
  revert q t w. induction p as [ | pnum pnext IH ]; intros q t w; simpl; [ lia | ].
  destruct (heap w (malloc_calls w)); simpl; [ | discriminate ].
  destruct q as [ | qnum qnext ]; [ discriminate | ].
  intros H. apply IH in H. simpl. lia.
Qed.

(** Finalization pairs the [k]-th smallest used number with the [k]-th
    smallest of the numbers drawn. *)
Lemma finalization_pairs lower upper fuel a w r a' w' :
  invariant lower upper a -> a_state a = INIT ->
  anon_uint64_set_state fuel a LEX w = Return (r, a', w') ->
  exists hashlist w1,
    populate_hashlist fuel (set_a_state a LEX) (a_list a) 0 [] w = Return (hashlist, w1)
    /\ descending hashlist /\ within lower upper hashlist
    /\ length hashlist = length (a_list a)
    /\ (forall num, is_Some (a_hash_table a' !! num) <-> num ∈ a_list a)
    /\ (forall k num, reverse (a_list a) !! k = Some num ->
          exists hash, reverse hashlist !! k = Some hash
                       /\ a_hash_table a' !! num = Some hash).
Proof.
  intros I Hs. simpl. rewrite Hs. simpl. intros H.
  bind_inv H. destruct x as [hashlist w1]. bind_inv H. destruct x as [t w2].
  injection H as <- <- <-. simpl in *.
  destruct I as [Il Iu Ir Ib Ilist Itab Iinit Ilex]. pose proof Ib as (Hl & Hu & Hle).
  rewrite (Iinit Hs) in E0.
  pose proof E as Hp.
  apply (populate_hashlist_sound lower upper) in Hp as (Hd & Hw & Hlen1);
    try assumption; [ | constructor | constructor ].
  pose proof (assign_hashes_length _ _ _ _ _ _ E0) as Hlen2. simpl in Hlen1.
  assert (length hashlist = length (a_list a)) as Hlen by lia.
  pose proof (assign_hashes_pairs _ _ _ _ _ _ (descending_NoDup _ Ilist) E0) as Hpairs.
  exists hashlist, w1. repeat split; try assumption.
  - intros [v Hv]. apply (assign_hashes_keys _ _ _ _ _ _ _ _ E0) in Hv as [ Hv | Hv ];
      [ rewrite lookup_empty in Hv; discriminate | exact Hv ].
  - intros Hin. apply list_elem_of_lookup in Hin as [i Hi].
    destruct (Hpairs i num Hi) as (hash & _ & Hh). exists hash. exact Hh.
  - intros k num Hk. apply reverse_lookup_Some in Hk as [Hk Hlt].
    destruct (Hpairs _ _ Hk) as (hash & Hq & Hh). exists hash. split; [ | exact Hh ].
    apply reverse_lookup_Some. rewrite Hlen. split; [ exact Hq | lia ].
Qed.

(** C1. Order preservation in lex mode: on an object made by
    [anon_uint64_new] and used through the interface, whenever
    [anon_uint64_map_lex] returns outputs for two inputs [x < y] (both are
    then numbers marked with [anon_uint64_set_used] before the first
    [anon_uint64_map_lex]), the output for [x] is below the output for [y];
    and the finalization done by the first [anon_uint64_map_lex] pairs the
    [k]-th smallest used number with the [k]-th smallest of the distinct
    numbers drawn, the table holding exactly the used numbers. *)
Theorem lex_order_preserving lower upper a :
  reachable lower upper a ->
  (forall fuel1 x w1 r1 ax a1 w1' a2 fuel2 y w2 r2 ay a3 w2',
      anon_uint64_map_lex fuel1 a x w1 = Return (r1, ax, a1, w1') ->
      rtc call_step a1 a2 ->
      anon_uint64_map_lex fuel2 a2 y w2 = Return (r2, ay, a3, w2') ->
      x < y -> ax < ay)
  /\ (a_state a = INIT ->
      forall fuel w r a' w',
        anon_uint64_set_state fuel a LEX w = Return (r, a', w') ->
        exists hashlist w1,
          populate_hashlist fuel (set_a_state a LEX) (a_list a) 0 [] w
            = Return (hashlist, w1)
          /\ descending hashlist /\ length hashlist = length (a_list a)
          /\ (forall num, is_Some (a_hash_table a' !! num) <-> num ∈ a_list a)
          /\ (forall k num, reverse (a_list a) !! k = Some num ->
                exists hash, reverse hashlist !! k = Some hash
                             /\ a_hash_table a' !! num = Some hash)).
Proof.
  intros Hr. pose proof (reachable_invariant _ _ _ Hr) as I. split.
  - intros fuel1 x w1 r1 ax a1 w1' a2 fuel2 y w2 r2 ay a3 w2' H1 Hsteps H2 Hlt.
    apply (map_lex_invariant lower upper) in H1 as (I1 & _ & Hs1 & Ht1); [ | exact I ].
    destruct (lex_table_final _ _ Hs1 Hsteps) as [Hs2 Ht2].
    assert (a_hash_table a3 !! y = Some ay /\ a_hash_table a3 = a_hash_table a2) as [Ht3 Et].
    { unfold anon_uint64_map_lex in H2. simpl in H2. rewrite Hs2 in H2. simpl in H2.
      unfold lh_retrieve in H2. destruct (a_hash_table a2 !! y) eqn:Ey; [ | discriminate ].
      injection H2 as _ <- <- _. auto. }
    rewrite Et, Ht2 in Ht3.
    exact (inv_lex _ _ _ I1 Hs1 _ _ _ _ Ht1 Ht3 Hlt).
  - intros Hs fuel w r a' w' H.
    destruct (finalization_pairs _ _ _ _ _ _ _ _ I Hs H)
      as (hashlist & w1 & Hp & Hd & _ & Hlen & Hkeys & Hpairs).
    exists hashlist, w1. auto.
Qed.

Lemma scenario4_setup :
  new_with_used 0 9 [3; 8; 1] scenario4_world
  = Return (Some scenario4_used, scenario4_world_used).
Proof. vm_compute. reflexivity. Defined.

Lemma scenario4_reachable : reachable 0 9 scenario4_used.
Proof.
  apply (new_with_used_reachable 0 9 [3; 8; 1] scenario4_world scenario4_used
           scenario4_world_used).
  - apply small_is_uint64. lia.
  - apply small_is_uint64. lia.
  - exact scenario4_setup.
Defined.

Lemma scenario4_map_lex_1 :
  anon_uint64_map_lex 2 scenario4_used 1 scenario4_world_used
  = Return (0, 0, scenario4_final, scenario4_world_final).
Proof. vm_compute. reflexivity. Defined.

Lemma scenario4_map_lex_8 :
  anon_uint64_map_lex 0 scenario4_final 8 scenario4_world_final
  = Return (0, 7, scenario4_final, scenario4_world_final).
Proof. vm_compute. reflexivity. Defined.

Lemma scenario4_finalization :
  anon_uint64_set_state 2 scenario4_used LEX scenario4_world_used
  = Return (0, scenario4_final, scenario4_world_final).
Proof. vm_compute. reflexivity. Defined.

Lemma lex_order_preserving_witness :
  reachable 0 9 scenario4_used
  /\ anon_uint64_map_lex 2 scenario4_used 1 scenario4_world_used
     = Return (0, 0, scenario4_final, scenario4_world_final)
  /\ anon_uint64_map_lex 0 scenario4_final 8 scenario4_world_final
     = Return (0, 7, scenario4_final, scenario4_world_final)
  /\ 0 < 7
  /\ a_state scenario4_used = INIT
  /\ anon_uint64_set_state 2 scenario4_used LEX scenario4_world_used
     = Return (0, scenario4_final, scenario4_world_final)
  /\ exists hashlist w1,
       populate_hashlist 2 (set_a_state scenario4_used LEX) (a_list scenario4_used) 0 []
         scenario4_world_used = Return (hashlist, w1)
       /\ descending hashlist /\ length hashlist = length (a_list scenario4_used)
       /\ (forall num, is_Some (a_hash_table scenario4_final !! num)
                       <-> num ∈ a_list scenario4_used)
       /\ (forall k num, reverse (a_list scenario4_used) !! k = Some num ->
             exists hash, reverse hashlist !! k = Some hash
                          /\ a_hash_table scenario4_final !! num = Some hash).
Proof.
  pose proof (lex_order_preserving 0 9 scenario4_used scenario4_reachable) as [Horder Hpairs].
  split; [ exact scenario4_reachable | ].
  split; [ exact scenario4_map_lex_1 | ].
  split; [ exact scenario4_map_lex_8 | ].
  split.
  { refine (Horder 2%nat 1 scenario4_world_used 0 0 scenario4_final scenario4_world_final
              scenario4_final 0%nat 8 scenario4_world_final 0 7 scenario4_final
              scenario4_world_final scenario4_map_lex_1 (rtc_refl _ _)
              scenario4_map_lex_8 _).
    lia. }
  split; [ reflexivity | ]. split; [ exact scenario4_finalization | ].
  exact (Hpairs eq_refl 2%nat scenario4_world_used 0 scenario4_final scenario4_world_final
           scenario4_finalization).
Defined.

(** ** The sorted list *)

(** C10. The list of the object is at all times strictly descending from its
    head, hence without duplicates; [list_insert] keeps a descending list
    descending, returns 1 exactly when the number is already in the list
    (which it leaves as it is), 0 exactly when the number is new and the
    node could be allocated (the list then holds the number in addition),
    and -1 exactly when the number is new and [malloc] failed (the list is
    left as it is). *)
Theorem list_kept_descending :
  (forall lower upper a,
      reachable lower upper a -> descending (a_list a) /\ NoDup (a_list a))
  /\ (forall l num w r l' w',
        descending l -> list_insert l num w = (r, l', w') ->
        descending l'
        /\ (r = 1 \/ r = 0 \/ r = -1)
        /\ (r = 1 <-> num ∈ l)
        /\ (r = 0 <-> (num ∉ l) /\ heap w (malloc_calls w) = true)
        /\ (r = -1 <-> (num ∉ l) /\ heap w (malloc_calls w) = false)
        /\ (r <> 0 -> l' = l)
        /\ (r = 0 -> (forall x, x ∈ l' <-> x = num \/ x ∈ l)
                     /\ length l' = S (length l))).
Proof.
  split.
  - intros lower upper a Hr. pose proof (reachable_invariant _ _ _ Hr) as I.
    split; [ exact (inv_list _ _ _ I) | exact (descending_NoDup _ (inv_list _ _ _ I)) ].
  - intros l num w r l' w' Hd E.
    pose proof (list_insert_descending l num w Hd) as Hspec. rewrite E in Hspec.
    inversion Hspec as [ Hin | l0 Hnot Hh Hd' Hel Hlen | Hnot Hh ]; subst.
    + repeat split; auto; try lia; try tauto; try congruence.
    + repeat split; auto; try lia; try tauto; try congruence; try apply Hel.
      intros [_ Hh']. congruence.
    + repeat split; auto; try lia; try tauto; try congruence.
      intros [_ Hh']. congruence.
Qed.

Lemma list_kept_descending_witness :
  (descending (a_list scenario4_used) /\ NoDup (a_list scenario4_used))
  /\ descending [9; 5; 2]
  /\ list_insert [9; 5; 2] 7 counting_world = (0, [9; 7; 5; 2], snd (malloc counting_world))
  /\ descending [9; 7; 5; 2].
Proof.
  assert (descending [9; 5; 2]) as Hd.
  { unfold descending. repeat constructor; lia. }
  assert (list_insert [9; 5; 2] 7 counting_world
          = (0, [9; 7; 5; 2], snd (malloc counting_world))) as E by reflexivity.
  split; [ exact (proj1 list_kept_descending 0 9 scenario4_used scenario4_reachable) | ].
  split; [ exact Hd | ]. split; [ exact E | ].
  exact (proj1 (proj2 list_kept_descending [9; 5; 2] 7 counting_world 0 [9; 7; 5; 2]
                  (snd (malloc counting_world)) Hd E)).
Defined.

(** ** Finalization with more used numbers than the range holds *)

(** A strictly descending list that is shorter than the interval misses one
    of its numbers. *)
Lemma missing_value lower upper l :
  descending l ->
  Z.of_nat (length l) < upper - lower + 1 ->
  exists v, lower <= v <= upper /\ v ∉ l.
Proof.
  revert upper. induction l as [ | h t IH ]; intros upper Hd Hlen.
  - exists lower. simpl in Hlen. split; [ lia | apply not_elem_of_nil ].
  - apply descending_cons in Hd as [Hd Hf]. simpl length in Hlen.
    destruct (Z.lt_trichotomy h upper) as [ Hlt | [ -> | Hgt ] ].
    + exists upper. split; [ lia | ]. apply not_elem_of_cons. split; [ lia | ].
      intros Hin. rewrite Forall_forall in Hf. specialize (Hf upper Hin). lia.
    + destruct (IH (upper - 1)) as (v & Hv & Hnot); [ exact Hd | lia | ].
      exists v. split; [ lia | ]. apply not_elem_of_cons. split; [ lia | exact Hnot ].
    + destruct (IH upper) as (v & Hv & Hnot); [ exact Hd | lia | ].
      exists v. split; [ lia | ]. apply not_elem_of_cons. split; [ lia | exact Hnot ].
Qed.

(** If the first loop of the finalization comes to an end, the range has
    room for every node of the list. *)
Lemma populate_hashlist_room fuel a p count hashlist w hashlist' w' :
  populate_hashlist fuel a p count hashlist w = Return (hashlist', w') ->
  count + Z.of_nat (length p) <= Z.max count (wrap64 (a_upper a - a_lower a + 1)).
Proof.
  revert count hashlist w. induction p as [ | pnum next IH ]; intros count hashlist w; simpl length.
  - intros _. lia.
  - simpl. destruct (count =? INT_MAX); [ discriminate | ].
    destruct (Z.ltb_spec (wrap64 (a_upper a - a_lower a + 1)) (count + 1)) as [ | Hok ];
      [ discriminate | ].
    intros H. bind_inv H. destruct x as [hl1 w1]. apply IH in H. lia.
Qed.

Section Exhaustion.
Variables lower upper : Z.
Variable a : anon_uint64_t.
Hypothesis Hlower : is_uint64 lower.
Hypothesis Hupper : is_uint64 upper.
Hypothesis Hle : lower <= upper.
Hypothesis El : a_lower a = lower.
Hypothesis Eu : a_upper a = upper.
Hypothesis Er : a_range a = upper - lower + 1.

Lemma generate_random_number_draw w :
  generate_random_number a w
  = Return (wrap64 (rand_stream w (rand_calls w)) mod (upper - lower + 1) + lower,
            snd (RAND_bytes w)).
Proof.
  unfold generate_random_number, RAND_bytes. simpl. rewrite Er, El.
  destruct (Z.eqb_spec (upper - lower + 1) 0); [ lia | ].
  assert (0 <= wrap64 (rand_stream w (rand_calls w)) mod (upper - lower + 1)
          < upper - lower + 1) as Hm by (apply Z.mod_pos_bound; lia).
  rewrite wrap64_small; [ reflexivity | ]. unfold is_uint64 in *. lia.
Qed.

(** The re-draw loop ends at the latest when the stream hits a number
    that the list misses. *)
Lemma draw_hash_ends hashlist v :
  descending hashlist -> v ∉ hashlist -> lower <= v <= upper ->
  forall (d : nat) w,
    wrap64 (rand_stream w (rand_calls w + d)) mod (upper - lower + 1) = v - lower ->
    exists hashlist' w',
      rand_stream w' = rand_stream w /\
      forall fuel, (d < fuel)%nat ->
        draw_hash fuel a hashlist w = Return (hashlist', w').
Proof.
  intros Hd Hv Hr. induction d as [ | d IH ]; intros w Hhit.
  - rewrite Nat.add_0_r in Hhit.
    destruct (list_insert_cases hashlist (v - lower + lower) (snd (RAND_bytes w)) Hd)
      as [ [Hin _] | (_ & r & l' & Hr1 & E) ].
    { exfalso. apply Hv. replace v with (v - lower + lower) by lia. exact Hin. }
    exists l', (snd (malloc (snd (RAND_bytes w)))). split; [ reflexivity | ].
    intros [ | fuel ] Hf; [ lia | ]. simpl.
    rewrite generate_random_number_draw. simpl. rewrite Hhit.
    unfold RAND_bytes in E. simpl in E. rewrite E.
    destruct (Z.eqb_spec r 1); [ contradiction | reflexivity ].
  - set (anum := wrap64 (rand_stream w (rand_calls w)) mod (upper - lower + 1) + lower).
    destruct (list_insert_cases hashlist anum (snd (RAND_bytes w)) Hd)
      as [ [Hin E] | (_ & r & l' & Hr1 & E) ].
    + destruct (IH (snd (RAND_bytes w))) as (hl' & w' & Hs & Hfuel).
      { simpl. rewrite <- Hhit. f_equal. f_equal. f_equal. lia. }
      exists hl', w'. split; [ exact Hs | ].
      intros [ | fuel ] Hf; [ lia | ]. simpl.
      rewrite generate_random_number_draw. simpl. fold anum.
      unfold RAND_bytes in E. simpl in E. rewrite E. simpl.
      apply Hfuel. lia.
    + exists l', (snd (malloc (snd (RAND_bytes w)))). split; [ reflexivity | ].
      intros [ | fuel ] Hf; [ lia | ]. simpl.
      rewrite generate_random_number_draw. simpl. fold anum.
      unfold RAND_bytes in E. simpl in E. rewrite E.
      destruct (Z.eqb_spec r 1); [ contradiction | reflexivity ].
Qed.

Hypothesis Hint : upper - lower + 1 < INT_MAX.

(** With a fair stream the first loop runs until [count] passes the range
    and the [assert(0)] is met. *)
Lemma populate_hashlist_aborts p :
  forall count hashlist w,
    descending hashlist -> within lower upper hashlist ->
    Z.of_nat (length hashlist) <= count ->
    0 <= count <= upper - lower + 1 ->
    upper - lower + 1 < count + Z.of_nat (length p) ->
    fair (upper - lower + 1) w ->
    exists fuel0, forall fuel, (fuel0 <= fuel)%nat ->
      populate_hashlist fuel a p count hashlist w = AssertFail.
Proof.
  induction p as [ | pnum next IH ]; intros count hashlist w Hd Hw Hlen Hc Hp Hfair.
  - simpl in Hp. lia.
  - simpl length in Hp.
    assert (wrap64 (a_upper a - a_lower a + 1) = upper - lower + 1) as Ew.
    { rewrite Eu, El. apply wrap64_small. unfold is_uint64, INT_MAX, UINT64_MOD in *. lia. }
    destruct (Z.eq_dec count (upper - lower + 1)) as [ Hfull | Hroom ].
    + exists O. intros fuel _. simpl. rewrite Ew.
      destruct (Z.eqb_spec count INT_MAX); [ lia | ].
      destruct (Z.ltb_spec (upper - lower + 1) (count + 1)); [ reflexivity | lia ].
    + destruct (missing_value lower upper hashlist Hd) as (v & Hv & Hnot); [ lia | ].
      destruct (Hfair (rand_calls w) (v - lower)) as (m & Hm & Hhit); [ lia | ].
      destruct (draw_hash_ends hashlist v Hd Hnot Hv (m - rand_calls w) w)
        as (hl' & w' & Hs & Hfuel).
      { replace (rand_calls w + (m - rand_calls w))%nat with m by lia. exact Hhit. }
      pose proof (Hfuel (S (m - rand_calls w)) (Nat.lt_succ_diag_r _)) as Hdraw.
      apply (draw_hash_sound lower upper) in Hdraw as (Hd' & Hw' & Hlen');
        try assumption;
        [ | rewrite Er; symmetry; apply wrap64_small;
            unfold is_uint64, INT_MAX, UINT64_MOD in *; lia ].
      destruct (IH (count + 1) hl' w') as (fuel1 & Hrest); try assumption; try lia.
      { unfold fair. rewrite Hs. exact Hfair. }
      exists (Nat.max (S (m - rand_calls w)) fuel1). intros fuel Hf. simpl. rewrite Ew.
      destruct (Z.eqb_spec count INT_MAX); [ lia | ].
      destruct (Z.ltb_spec (upper - lower + 1) (count + 1)); [ lia | ].
      rewrite (Hfuel fuel) by lia. simpl. apply Hrest. lia.
Qed.
End Exhaustion.

(** C7. Finalization with more used numbers than the range
    [upper - lower + 1] holds: on an object in state [INIT] whose list is
    longer than the range, [anon_uint64_map_lex] never returns a mapping,
    whatever the draws and the fuel; and when the range is below [INT_MAX]
    (the counter is an [int]) and the random stream is fair, so that every
    re-draw loop ends, the call dies on the [assert(0)] that follows the
    message about the range. *)
Theorem lex_finalization_exhausted lower upper a num w :
  reachable lower upper a -> a_state a = INIT ->
  upper - lower + 1 < Z.of_nat (length (a_list a)) ->
  (forall fuel, ~ returns (anon_uint64_map_lex fuel a num w))
  /\ (upper - lower + 1 < INT_MAX -> fair (upper - lower + 1) w ->
      exists fuel0, forall fuel, (fuel0 <= fuel)%nat ->
        anon_uint64_map_lex fuel a num w = AssertFail).
Proof.
  intros Hr Hs Hlen. pose proof (reachable_invariant _ _ _ Hr) as I.
  destruct I as [Il Iu Ir Ib Ilist Itab Iinit Ilex]. pose proof Ib as (Hl & Hu & Hle).
  split.
  - intros fuel [[[[r anum] a'] w'] H].
    unfold anon_uint64_map_lex in H. simpl in H. rewrite Hs in H. simpl in H.
    bind_inv H. bind_inv E. destruct x0 as [hashlist w1].
    apply populate_hashlist_room in E0. simpl in E0. rewrite Iu, Il in E0.
    assert (wrap64 (upper - lower + 1) <= upper - lower + 1) as Hw
      by (unfold wrap64, UINT64_MOD; apply Z.mod_le; lia).
    lia.
  - intros Hint Hfair.
    destruct (populate_hashlist_aborts lower upper (set_a_state a LEX) Hl Hu Hle Il Iu)
      with (p := a_list a) (count := 0) (hashlist := @nil Z) (w := w) as (fuel0 & Hfuel);
      try assumption; try lia.
    + simpl. rewrite Ir. apply wrap64_small.
      unfold is_uint64, INT_MAX, UINT64_MOD in *. lia.
    + constructor.
    + constructor.
    + simpl. lia.
    + exists fuel0. intros fuel Hf.
      unfold anon_uint64_map_lex. simpl. rewrite Hs. simpl.
      rewrite (Hfuel fuel Hf). reflexivity.
Qed.

Lemma cycling_fair k w :
  0 < k <= UINT64_MOD -> rand_stream w = rand_stream (cycling_world k) -> fair k w.
Proof.
  intros Hk Es n v Hv. rewrite Es. simpl.
  exists (Z.to_nat (Z.of_nat n * k + v)). split; [ nia | ].
  rewrite Z2Nat.id by nia.
  assert (0 <= (Z.of_nat n * k + v) mod k < k) as Hm by (apply Z.mod_pos_bound; lia).
  rewrite wrap64_small by (unfold is_uint64; lia).
  rewrite Z.mod_mod by lia. rewrite Z.add_comm, Z.mod_add by lia.
  apply Z.mod_small. exact Hv.
Qed.

Lemma scenario5_setup :
  new_with_used 0 9 [0; 1; 2; 3; 4; 5; 6; 7; 8; 9; 10] scenario5_world
  = Return (Some scenario5_used, scenario5_world_used).
Proof. vm_compute. reflexivity. Defined.

Lemma scenario5_reachable : reachable 0 9 scenario5_used.
Proof.
  apply (new_with_used_reachable 0 9 [0; 1; 2; 3; 4; 5; 6; 7; 8; 9; 10] scenario5_world
           scenario5_used scenario5_world_used).
  - apply small_is_uint64. lia.
  - apply small_is_uint64. lia.
  - exact scenario5_setup.
Defined.

Lemma scenario5_aborts :
  anon_uint64_map_lex 1 scenario5_used 0 scenario5_world_used = AssertFail.
Proof. vm_compute. reflexivity. Qed.

Lemma lex_finalization_exhausted_witness :
  reachable 0 9 scenario5_used
  /\ a_state scenario5_used = INIT
  /\ 9 - 0 + 1 < Z.of_nat (length (a_list scenario5_used))
  /\ 9 - 0 + 1 < INT_MAX
  /\ fair (9 - 0 + 1) scenario5_world_used
  /\ (forall fuel, ~ returns (anon_uint64_map_lex fuel scenario5_used 0 scenario5_world_used))
  /\ exists fuel0, forall fuel, (fuel0 <= fuel)%nat ->
       anon_uint64_map_lex fuel scenario5_used 0 scenario5_world_used = AssertFail.
Proof.
  assert (9 - 0 + 1 < Z.of_nat (length (a_list scenario5_used))) as Hlen
    by (simpl; lia).
  assert (9 - 0 + 1 < INT_MAX) as Hint by (unfold INT_MAX; lia).
  assert (fair (9 - 0 + 1) scenario5_world_used) as Hfair.
  { apply cycling_fair; [ unfold UINT64_MOD; lia | reflexivity ]. }
  pose proof (lex_finalization_exhausted 0 9 scenario5_used 0 scenario5_world_used
                scenario5_reachable eq_refl Hlen) as [Hnever Hdies].
  split; [ exact scenario5_reachable | ]. split; [ reflexivity | ].
  split; [ exact Hlen | ]. split; [ exact Hint | ]. split; [ exact Hfair | ].
  split; [ exact Hnever | exact (Hdies Hint Hfair) ].
Defined.

(** With the draws all equal the second re-draw loop of the finalization
    meets the number drawn first again and again. *)
Lemma draw_hash_constant_hangs fuel r m :
  draw_hash fuel (set_a_state scenario5_used LEX) [0] (advance constant_world r m) = Hang.
Proof.
  revert r. induction fuel as [ | fuel IH ]; intros r; [ reflexivity | ].
  exact (IH (S r)).
Qed.

(** C7, the statement as it stands fails: in scenario 5 (bounds 0 and 9, the
    eleven numbers 0 to 10 marked), when every draw is 0 the first
    [anon_uint64_map_lex] does not fail: it is still in the re-draw loop for
    the second node after any number of rounds, and never comes to the
    count of eleven. *)
Lemma lex_finalization_can_hang :
  reachable 0 9 scenario5_used
  /\ a_state scenario5_used = INIT
  /\ 9 - 0 + 1 < Z.of_nat (length (a_list scenario5_used))
  /\ forall fuel,
       anon_uint64_map_lex fuel scenario5_used 0 scenario5_stuck_world = Hang.
Proof.
  split; [ exact scenario5_reachable | ]. split; [ reflexivity | ].
  split; [ simpl; lia | ].
  intros [ | fuel ]; [ reflexivity | ].
  unfold anon_uint64_map_lex, anon_uint64_set_state.
  change (state_eqb (a_state scenario5_used) LEX) with false.
  change (negb (state_eqb (a_state scenario5_used) INIT)) with false.
  cbv iota.
  change (a_list (set_a_state scenario5_used LEX)) with [10; 9; 8; 7; 6; 5; 4; 3; 2; 1; 0].
  assert (populate_hashlist (S fuel) (set_a_state scenario5_used LEX)
            [10; 9; 8; 7; 6; 5; 4; 3; 2; 1; 0] 0 [] scenario5_stuck_world = Hang) as ->;
    [ | reflexivity ].
  change (populate_hashlist (S fuel) (set_a_state scenario5_used LEX)
            [10; 9; 8; 7; 6; 5; 4; 3; 2; 1; 0] 0 [] scenario5_stuck_world)
    with (obind (draw_hash (S fuel) (set_a_state scenario5_used LEX) [0]
                   (advance constant_world 1 13))
            (fun '(hashlist', w') =>
               populate_hashlist (S fuel) (set_a_state scenario5_used LEX)
                 [8; 7; 6; 5; 4; 3; 2; 1; 0] 2 hashlist' w')).
  rewrite draw_hash_constant_hangs. reflexivity.
Qed.

(** The counter of the first loop is an [int]: with a range of [INT_MAX] or
    more it never passes the range, so the [assert(0)] of that loop is not
    met, however long the list is. *)
Lemma draw_hash_never_asserts fuel a hashlist w :
  draw_hash fuel a hashlist w <> AssertFail.
Proof.
  revert hashlist w. induction fuel as [ | fuel IH ]; intros hashlist w; simpl;
    [ discriminate | ].
  unfold generate_random_number. simpl.
  destruct (a_range a =? 0); simpl; [ discriminate | ].
  match goal with
  | |- context [ list_insert ?l ?n ?v ] => destruct (list_insert l n v) as [[r l1] w1]
  end.
  destruct (r =? 1); [ apply IH | discriminate ].
Qed.

Lemma populate_hashlist_int_counter fuel a p :
  INT_MAX <= wrap64 (a_upper a - a_lower a + 1) ->
  forall count hashlist w,
    count <= INT_MAX ->
    populate_hashlist fuel a p count hashlist w <> AssertFail.
Proof.
  intros Hbig. induction p as [ | pnum next IH ]; intros count hashlist w Hc; simpl;
    [ discriminate | ].
  destruct (Z.eqb_spec count INT_MAX) as [ | Hne ]; [ discriminate | ].
  destruct (Z.ltb_spec (wrap64 (a_upper a - a_lower a + 1)) (count + 1)); [ lia | ].
  pose proof (draw_hash_never_asserts fuel a hashlist w) as Hdraw.
  destruct (draw_hash fuel a hashlist w) as [ [hl1 w1] | | | ]; simpl;
    [ apply IH; lia | contradiction | discriminate | discriminate ].
Qed.

(** ** Finalization within the range *)

Lemma list_insert_env l num w r l' w' :
  list_insert l num w = (r, l', w') ->
  rand_stream w' = rand_stream w /\ heap w' = heap w /\ rand_calls w' = rand_calls w.
Proof.
  unfold list_insert. destruct (list_search l num) as [ [before after] | ].
  - simpl. destruct (heap w (malloc_calls w)); intros [= _ _ <-]; auto.
  - intros [= _ _ <-]. auto.
Qed.

Lemma draw_hash_env fuel a hashlist w hashlist' w' :
  draw_hash fuel a hashlist w = Return (hashlist', w') ->
  rand_stream w' = rand_stream w /\ heap w' = heap w.
Proof.
  revert hashlist w. induction fuel as [ | fuel IH ]; intros hashlist w; simpl;
    [ discriminate | ].
  unfold generate_random_number. simpl.
  destruct (a_range a =? 0); simpl; [ discriminate | ].
  match goal with
  | |- context [ list_insert ?l ?n ?v ] =>
      destruct (list_insert l n v) as [[r l1] w1] eqn:E
  end.
  apply list_insert_env in E as (E1 & E2 & _). simpl in E1, E2.
  destruct (r =? 1).
  - intros H. apply IH in H as [H1 H2]. split; congruence.
  - intros [= _ <-]. auto.
Qed.

(** When no allocation fails, each run of the re-draw loop adds a node. *)
Lemma draw_hash_grows fuel a hashlist w hashlist' w' :
  descending hashlist -> roomy w ->
  draw_hash fuel a hashlist w = Return (hashlist', w') ->
  length hashlist' = S (length hashlist).
Proof.
  intros Hd Hroomy. revert w Hroomy.
  induction fuel as [ | fuel IH ]; intros w Hroomy; simpl; [ discriminate | ].
  unfold generate_random_number. simpl.
  destruct (a_range a =? 0); simpl; [ discriminate | ].
  match goal with
  | |- context [ list_insert ?l ?n ?v ] =>
      pose proof (list_insert_descending l n v Hd) as Hspec;
      destruct (list_insert l n v) as [[r l1] w1] eqn:E
  end.
  inversion Hspec as [ Hin | l0 Hnot Hh Hd' Hel Hlen | Hnot Hh ]; subst; simpl.
  - apply IH. exact Hroomy.
  - intros [= <- _]. exact Hlen.
  - simpl in Hh. rewrite Hroomy in Hh. discriminate.
Qed.

Lemma assign_hashes_returns p q t w :
  roomy w -> (length p <= length q)%nat ->
  exists t' w', assign_hashes p q t w = Return (t', w').
Proof.
  revert q t w. induction p as [ | pnum pnext IH ]; intros q t w Hroomy Hlen; simpl.
  - eauto.
  - rewrite Hroomy. simpl. destruct q as [ | qnum qnext ]; simpl in Hlen; [ lia | ].
    apply IH; [ exact Hroomy | lia ].
Qed.

Section Room.
Variables lower upper : Z.
Variable a : anon_uint64_t.
Hypothesis Hlower : is_uint64 lower.
Hypothesis Hupper : is_uint64 upper.
Hypothesis Hle : lower <= upper.
Hypothesis El : a_lower a = lower.
Hypothesis Eu : a_upper a = upper.
Hypothesis Er : a_range a = upper - lower + 1.
Hypothesis Hsmall : upper - lower + 1 < UINT64_MOD.

(** With a fair stream and no allocation failure the first loop of the
    finalization ends with one number drawn for each node. *)
Lemma populate_hashlist_returns p :
  forall count hashlist w,
    descending hashlist -> within lower upper hashlist ->
    Z.of_nat (length hashlist) = count ->
    count + Z.of_nat (length p) <= upper - lower + 1 ->
    count + Z.of_nat (length p) <= INT_MAX ->
    fair (upper - lower + 1) w -> roomy w ->
    exists fuel0 hashlist' w',
      length hashlist' = (length hashlist + length p)%nat /\ heap w' = heap w /\
      forall fuel, (fuel0 <= fuel)%nat ->
        populate_hashlist fuel a p count hashlist w = Return (hashlist', w').
Proof.
  assert (a_range a = wrap64 (upper - lower + 1)) as Er'.
  { rewrite Er. symmetry. apply wrap64_small. unfold is_uint64. lia. }
  induction p as [ | pnum next IH ];
    intros count hashlist w Hd Hw Hlen Hc Hi Hfair Hroomy.
  - exists O, hashlist, w. split; [ simpl; lia | ]. split; [ reflexivity | ].
    intros fuel _. reflexivity.
  - simpl length in Hc, Hi.
    destruct (missing_value lower upper hashlist Hd) as (v & Hv & Hnot); [ lia | ].
    destruct (Hfair (rand_calls w) (v - lower)) as (m & Hm & Hhit); [ lia | ].
    destruct (draw_hash_ends lower upper a Hlower Hupper Hle El Er hashlist v Hd Hnot Hv
                (m - rand_calls w) w) as (hl1 & w1 & Hs & Hfuel).
    { replace (rand_calls w + (m - rand_calls w))%nat with m by lia. exact Hhit. }
    pose proof (Hfuel (S (m - rand_calls w)) (Nat.lt_succ_diag_r _)) as Hdraw.
    pose proof (draw_hash_grows _ _ _ _ _ _ Hd Hroomy Hdraw) as Hgrow.
    pose proof (draw_hash_env _ _ _ _ _ _ Hdraw) as [_ Hheap].
    apply (draw_hash_sound lower upper) in Hdraw as (Hd1 & Hw1 & _); try assumption.
    destruct (IH (count + 1) hl1 w1) as (fuel1 & hl2 & w2 & Hlen2 & Hheap2 & Hrest);
      try assumption; try lia.
    { unfold fair. rewrite Hs. exact Hfair. }
    { unfold roomy. rewrite Hheap. exact Hroomy. }
    exists (Nat.max (S (m - rand_calls w)) fuel1), hl2, w2.
    split; [ simpl; lia | ]. split; [ congruence | ].
    intros fuel Hf. simpl. rewrite Eu, El, <- Er', Er.
    destruct (Z.eqb_spec count INT_MAX); [ lia | ].
    destruct (Z.ltb_spec (upper - lower + 1) (count + 1)); [ lia | ].
    rewrite (Hfuel fuel) by lia. simpl. apply Hrest. lia.
Qed.
End Room.

(** X9. When the used numbers fit in the range and in the [int] counter, the
    range is not the whole of [uint64_t], the random stream is fair and no
    allocation fails, the first [anon_uint64_map_lex] returns an output for
    every used number, given enough fuel. *)
Lemma lex_finalization_succeeds lower upper a w :
  reachable lower upper a -> a_state a = INIT ->
  Z.of_nat (length (a_list a)) <= upper - lower + 1 ->
  Z.of_nat (length (a_list a)) <= INT_MAX ->
  ~ (lower = 0 /\ upper = UINT64_MAX) ->
  fair (upper - lower + 1) w -> roomy w ->
  exists fuel0, forall fuel, (fuel0 <= fuel)%nat ->
    forall num, num ∈ a_list a ->
      exists anum a' w', anon_uint64_map_lex fuel a num w = Return (0, anum, a', w').
Proof.
  intros Hr Hs Hlen Hint Hfull Hfair Hroomy.
  pose proof (reachable_invariant _ _ _ Hr) as I.
  destruct I as [Il Iu Ir Ib Ilist Itab Iinit Ilex]. pose proof Ib as (Hl & Hu & Hle).
  destruct (range_cases lower upper Hl Hu Hle) as [ [Ew Hsmall] | (_ & F) ]; [ | tauto ].
  destruct (populate_hashlist_returns lower upper (set_a_state a LEX) Hl Hu Hle Il Iu)
    with (p := a_list a) (count := 0) (hashlist := @nil Z) (w := w)
    as (fuel0 & hashlist & w1 & Hlen1 & Hheap & Hpop);
    try assumption; try lia; try constructor.
  { simpl. congruence. }
  destruct (assign_hashes_returns (a_list a) hashlist ∅ w1) as (t & w2 & Hassign).
  { unfold roomy. rewrite Hheap. exact Hroomy. }
  { simpl in Hlen1. lia. }
  exists fuel0. intros fuel Hf num Hin.
  apply list_elem_of_lookup in Hin as [i Hi].
  destruct (assign_hashes_pairs _ _ _ _ _ _ (descending_NoDup _ Ilist) Hassign i num Hi)
    as (hash & _ & Hh).
  exists hash, (set_list (set_hash_table (set_a_state a LEX) t) []), w2.
  unfold anon_uint64_map_lex. simpl. rewrite Hs. simpl.
  rewrite (Hpop fuel Hf). simpl. rewrite (Iinit Hs), Hassign. simpl.
  unfold lh_retrieve. rewrite Hh. reflexivity.
Qed.

(** ** Range exhaustion in non-lex mode *)

(** When the list holds every number of the interval, each draw is met in
    the list and the loop of [anon_uint64_map] goes round again. *)
Lemma draw_fresh_hangs lower upper a l :
  is_uint64 lower -> is_uint64 upper -> lower <= upper ->
  a_lower a = lower -> a_range a = wrap64 (upper - lower + 1) -> a_range a <> 0 ->
  descending l -> (forall v, lower <= v <= upper -> v ∈ l) ->
  forall fuel w, draw_fresh fuel a l w = Hang.
Proof.
  intros Hl Hu Hle El Er Hnz Hd Hall. induction fuel as [ | fuel IH ]; intros w.
  - reflexivity.
  - simpl. destruct (generate_random_number a w) as [ [anum w1] | | | ] eqn:G;
      simpl.
    + pose proof (generate_random_number_range _ _ _ _ _ _ Hl Hu Hle El Er G) as Hr.
      destruct (list_insert_cases l anum w1 Hd) as [ [_ E] | (Hnot & _) ].
      * rewrite E. simpl. apply IH.
      * exfalso. apply Hnot. apply Hall. exact Hr.
    + unfold generate_random_number in G. simpl in G.
      destruct (a_range a =? 0); discriminate.
    + unfold generate_random_number in G. simpl in G.
      destruct (Z.eqb_spec (a_range a) 0); [ contradiction | discriminate ].
    + unfold generate_random_number in G. simpl in G.
      destruct (a_range a =? 0); discriminate.
Qed.

Lemma map_exhausted_hangs lower upper a num :
  reachable lower upper a -> a_state a <> LEX ->
  a_hash_table a !! num = None ->
  (forall v, lower <= v <= upper -> v ∈ a_list a) ->
  ~ (lower = 0 /\ upper = UINT64_MAX) ->
  forall fuel w, anon_uint64_map fuel a num w = Hang.
Proof.
  intros Hr Hs Ht Hall Hfull fuel w. pose proof (reachable_invariant _ _ _ Hr) as I.
  destruct I as [Il Iu Ir Ib Ilist Itab Iinit Ilex]. pose proof Ib as (Hl & Hu & Hle).
  assert (a_range a <> 0) as Hnz by (rewrite Ir; apply range_nonzero; assumption).
  unfold anon_uint64_map. simpl.
  destruct (a_state a) eqn:Es; simpl; [ | | congruence ].
  - unfold lh_retrieve. simpl. rewrite Ht.
    rewrite (draw_fresh_hangs lower upper); auto.
  - unfold lh_retrieve. rewrite Ht.
    rewrite (draw_fresh_hangs lower upper); auto.
Qed.

(** While the list leaves a number of the interval free, the stream is fair
    and no allocation fails, the loop of [anon_uint64_map] ends. *)
Lemma list_insert_fresh l num w :
  descending l -> num ∉ l -> heap w (malloc_calls w) = true ->
  exists l', list_insert l num w = (0, l', snd (malloc w)).
Proof.
  intros Hd Hnot Hh. pose proof (list_insert_descending l num w Hd) as Hspec.
  destruct (list_insert l num w) as [[r l'] w'].
  inversion Hspec as [ Hin | l0 Hnot' Hh' Hd' Hel Hlen | Hnot' Hh' ]; subst.
  - contradiction.
  - exists l'. reflexivity.
  - congruence.
Qed.

Lemma draw_fresh_env fuel a l w anum l' w' :
  draw_fresh fuel a l w = Return (anum, l', w') ->
  rand_stream w' = rand_stream w /\ heap w' = heap w.
Proof.
  revert l w. induction fuel as [ | fuel IH ]; intros l w; simpl; [ discriminate | ].
  unfold generate_random_number. simpl.
  destruct (a_range a =? 0); simpl; [ discriminate | ].
  match goal with
  | |- context [ list_insert ?l0 ?k ?u ] =>
      destruct (list_insert l0 k u) as [[r l1] w1] eqn:E
  end.
  apply list_insert_env in E as (E1 & E2 & _). simpl in E1, E2.
  destruct (0 <=? r); simpl; [ | discriminate ].
  destruct (r =? 1).
  - intros H. apply IH in H as [H1 H2]. split; congruence.
  - intros [= _ _ <-]. auto.
Qed.

Section Fresh.
Variables lower upper : Z.
Variable a : anon_uint64_t.
Hypothesis Hlower : is_uint64 lower.
Hypothesis Hupper : is_uint64 upper.
Hypothesis Hle : lower <= upper.
Hypothesis El : a_lower a = lower.
Hypothesis Er : a_range a = upper - lower + 1.

Lemma draw_fresh_ends l v :
  descending l -> v ∉ l -> lower <= v <= upper ->
  forall (d : nat) w,
    roomy w ->
    wrap64 (rand_stream w (rand_calls w + d)) mod (upper - lower + 1) = v - lower ->
    exists anum l' w',
      forall fuel, (d < fuel)%nat -> draw_fresh fuel a l w = Return (anum, l', w').
Proof.
  intros Hd Hv Hr. induction d as [ | d IH ]; intros w Hroomy Hhit.
  - rewrite Nat.add_0_r in Hhit.
    destruct (list_insert_fresh l (v - lower + lower) (snd (RAND_bytes w)) Hd)
      as [l' E]; [ replace (v - lower + lower) with v by lia; exact Hv | apply Hroomy | ].
    exists (v - lower + lower), l', (snd (malloc (snd (RAND_bytes w)))).
    intros [ | fuel ] Hf; [ lia | ]. simpl.
    rewrite (generate_random_number_draw lower upper) by assumption. simpl.
    rewrite Hhit. unfold RAND_bytes in E. simpl in E. rewrite E. reflexivity.
  - set (anum := wrap64 (rand_stream w (rand_calls w)) mod (upper - lower + 1) + lower).
    destruct (decide (anum ∈ l)) as [ Hin | Hnot ].
    + destruct (list_insert_cases l anum (snd (RAND_bytes w)) Hd)
        as [ [_ E] | (Hnot & _) ]; [ | contradiction ].
      destruct (IH (snd (RAND_bytes w))) as (anum' & l' & w' & Hfuel).
      { exact Hroomy. }
      { simpl. rewrite <- Hhit. f_equal. f_equal. f_equal. lia. }
      exists anum', l', w'.
      intros [ | fuel ] Hf; [ lia | ]. simpl.
      rewrite (generate_random_number_draw lower upper) by assumption. simpl. fold anum.
      unfold RAND_bytes in E. simpl in E. rewrite E. simpl.
      apply Hfuel. lia.
    + destruct (list_insert_fresh l anum (snd (RAND_bytes w)) Hd Hnot) as [l' E];
        [ apply Hroomy | ].
      exists anum, l', (snd (malloc (snd (RAND_bytes w)))).
      intros [ | fuel ] Hf; [ lia | ]. simpl.
      rewrite (generate_random_number_draw lower upper) by assumption. simpl. fold anum.
      unfold RAND_bytes in E. simpl in E. rewrite E. reflexivity.
Qed.
End Fresh.

(** X10. Outside lex mode, while the list is shorter than the range, the
    range is not the whole of [uint64_t], the random stream is fair and no
    allocation fails, [anon_uint64_map] returns an output for every input,
    given enough fuel. *)
Lemma map_returns lower upper a num w :
  reachable lower upper a -> a_state a <> LEX ->
  Z.of_nat (length (a_list a)) < upper - lower + 1 ->
  ~ (lower = 0 /\ upper = UINT64_MAX) ->
  fair (upper - lower + 1) w -> roomy w ->
  exists fuel0 anum a' w', forall fuel, (fuel0 <= fuel)%nat ->
    anon_uint64_map fuel a num w = Return (0, anum, a', w').
Proof.
  intros Hr Hs Hlen Hfull Hfair Hroomy.
  pose proof (reachable_invariant _ _ _ Hr) as I.
  destruct I as [Il Iu Ir Ib Ilist Itab Iinit Ilex]. pose proof Ib as (Hl & Hu & Hle).
  destruct (range_cases lower upper Hl Hu Hle) as [ [Ew Hsmall] | (_ & F) ]; [ | tauto ].
  rewrite Ew in Ir.
  assert (exists a1, a_state a1 = NON_LEX /\ a_hash_table a1 = a_hash_table a
                     /\ a_list a1 = a_list a /\ a_lower a1 = lower
                     /\ a_range a1 = upper - lower + 1
                     /\ forall fuel, anon_uint64_set_state fuel a NON_LEX w = Return (0, a1, w))
    as (a1 & Hs1 & Ht1 & Hl1 & El1 & Er1 & Hset).
  { destruct (a_state a) eqn:Es; [ | | congruence ].
    - exists (set_a_state a NON_LEX). simpl. rewrite Es. simpl. auto 10.
    - exists a. simpl. rewrite Es. simpl. auto 10. }
  destruct (a_hash_table a !! num) as [ hash | ] eqn:Eh.
  - exists O, hash, a1, w. intros fuel _. unfold anon_uint64_map.
    rewrite Hset. simpl. unfold lh_retrieve. rewrite Ht1, Eh. reflexivity.
  - destruct (missing_value lower upper (a_list a) Ilist Hlen) as (v & Hv & Hnot).
    destruct (Hfair (rand_calls w) (v - lower)) as (m & Hm & Hhit); [ lia | ].
    destruct (draw_fresh_ends lower upper a1 Hl Hu Hle El1 Er1 (a_list a) v Ilist Hnot Hv
                (m - rand_calls w) w Hroomy) as (anum & l' & w' & Hfuel).
    { replace (rand_calls w + (m - rand_calls w))%nat with m by lia. exact Hhit. }
    exists (S (m - rand_calls w)), anum,
      (set_hash_table (set_list a1 l') (lh_insert (a_hash_table a1) num anum)),
      (snd (malloc w')).
    intros fuel Hf. unfold anon_uint64_map. rewrite Hset. simpl.
    unfold lh_retrieve. rewrite Ht1, Eh, Hl1. rewrite (Hfuel fuel) by lia. simpl.
    pose proof (Hfuel (S (m - rand_calls w)) (Nat.lt_succ_diag_r _)) as Hdraw.
    apply draw_fresh_env in Hdraw as [_ Hheap].
    rewrite Hheap, Hroomy. reflexivity.
Qed.

Lemma exhausted_setup :
  anon_uint64_new 0 1 (cycling_world 2)
    = Return (Some exhausted_start, advance (cycling_world 2) 0 1)
  /\ anon_uint64_map 1 exhausted_start 5 (advance (cycling_world 2) 0 1)
    = Return (0, 0, exhausted_half, advance (cycling_world 2) 1 3)
  /\ anon_uint64_map 1 exhausted_half 6 (advance (cycling_world 2) 1 3)
    = Return (0, 1, exhausted_object, advance (cycling_world 2) 2 5).
Proof. repeat split; vm_compute; reflexivity. Qed.

Lemma exhausted_reachable : reachable 0 1 exhausted_object.
Proof.
  destruct exhausted_setup as (H0 & H1 & H2).
  eapply reachable_step; [ eapply reachable_step | ].
  - split; [ apply small_is_uint64; lia | ]. split; [ apply small_is_uint64; lia | ].
    eexists _, exhausted_start, _. split; [ exact H0 | apply rtc_refl ].
  - eapply step_map. exact H1.
  - eapply step_map. exact H2.
Qed.

(** C4. Range exhaustion in non-lex mode is not reported: with bounds 0 and 1,
    once the inputs 5 and 6 have been given the outputs 0 and 1,
    [anon_uint64_map] on the new input 7 is still in its re-draw loop after
    any number of rounds, whatever the draws; it neither returns nor fails. *)
Theorem map_exhausted_never_ends :
  (anon_uint64_new 0 1 (cycling_world 2)
     = Return (Some exhausted_start, advance (cycling_world 2) 0 1)
   /\ anon_uint64_map 1 exhausted_start 5 (advance (cycling_world 2) 0 1)
     = Return (0, 0, exhausted_half, advance (cycling_world 2) 1 3)
   /\ anon_uint64_map 1 exhausted_half 6 (advance (cycling_world 2) 1 3)
     = Return (0, 1, exhausted_object, advance (cycling_world 2) 2 5))
  /\ forall fuel w, anon_uint64_map fuel exhausted_object 7 w = Hang.
Proof.
  split; [ exact exhausted_setup | ].
  apply (map_exhausted_hangs 0 1).
  - exact exhausted_reachable.
  - discriminate.
  - reflexivity.
  - intros v Hv. assert (v = 1 \/ v = 0) as [ -> | -> ] by lia;
      [ apply list_elem_of_here | apply list_elem_of_further, list_elem_of_here ].
  - unfold UINT64_MAX, UINT64_MOD. lia.
Qed.

(** ** The key *)

Lemma set_key_ignored a key key' :
  anon_uint64_set_key a key = anon_uint64_set_key a key'.
Proof. reflexivity. Qed.

(** What a run answers depends on the draws it meets, not on the key. *)
Lemma keyed_run_key_irrelevant fuel key key' lower upper inputs w :
  keyed_run fuel key lower upper inputs w = keyed_run fuel key' lower upper inputs w.
Proof. reflexivity. Qed.

(** C2. The outputs are not a function of the key and the inputs: with the
    same key, the same bounds 0 and 99 and the same inputs 5, 5, 7, a mapper
    that meets the draws 10, 20 answers 10, 10, 20 and one that meets the
    draws 11, 21 answers 11, 11, 21; and a second mapper made in the same
    process after the first goes on in the same stream of draws and answers
    30, 30, 40 where the first answered 10, 10, 20. *)
Theorem same_key_different_outputs (key : anon_key_t) :
  keyed_run 1 key 0 99 [5; 5; 7] (world_of (stream_of [10; 20]))
    = Return ([10; 10; 20], advance (world_of (stream_of [10; 20])) 2 5)
  /\ keyed_run 1 key 0 99 [5; 5; 7] (world_of (stream_of [11; 21]))
    = Return ([11; 11; 21], advance (world_of (stream_of [11; 21])) 2 5)
  /\ keyed_run 1 key 0 99 [5; 5; 7] (world_of (stream_of [10; 20; 30; 40]))
    = Return ([10; 10; 20], advance (world_of (stream_of [10; 20; 30; 40])) 2 5)
  /\ keyed_run 1 key 0 99 [5; 5; 7] (advance (world_of (stream_of [10; 20; 30; 40])) 2 5)
    = Return ([30; 30; 40], advance (world_of (stream_of [10; 20; 30; 40])) 4 10).
Proof. repeat split; vm_compute; reflexivity. Qed.

(** ** The mode lock *)

Lemma map_lex_after_map_fails fuel a num w :
  a_state a = NON_LEX -> anon_uint64_map_lex fuel a num w = AssertFail.
Proof. intros Hs. unfold anon_uint64_map_lex. simpl. rewrite Hs. reflexivity. Qed.

Lemma map_after_map_lex_fails fuel a num w :
  a_state a = LEX -> anon_uint64_map fuel a num w = AssertFail.
Proof. intros Hs. unfold anon_uint64_map. simpl. rewrite Hs. reflexivity. Qed.

(** [anon_uint64_set_used] does not look at the state: it reports an error
    only when [malloc] fails. *)
Lemma set_used_status a num w r a' w' :
  anon_uint64_set_used a num w = Return (r, a', w') ->
  r = 0 \/ (r = -1 /\ heap w (malloc_calls w) = false).
Proof.
  unfold anon_uint64_set_used, list_insert. simpl.
  destruct (list_search (a_list a) num) as [ [before after] | ].
  - simpl. destruct (heap w (malloc_calls w)); simpl; intros [= <- _ _]; auto.
  - simpl. intros [= <- _ _]. auto.
Qed.

Lemma set_used_returns a num w :
  exists r a' w', anon_uint64_set_used a num w = Return (r, a', w').
Proof.
  unfold anon_uint64_set_used. simpl.
  destruct (list_insert (a_list a) num w) as [[r l] w'].
  destruct (0 <=? r); eauto.
Qed.

(** C3. The mode lock does not cover [anon_uint64_set_used]: after
    [anon_uint64_map] (scenario 3, once 5 is mapped to 67) the call
    [anon_uint64_set_used] on 9 returns 0 and puts 9 in the list of the
    outputs given so far; after [anon_uint64_map_lex] (scenario 4, once the
    mapping is final) the call on 5 returns 0 as well. *)
Theorem set_used_after_map_succeeds :
  a_state scenario3_mapped5 = NON_LEX
  /\ anon_uint64_set_used scenario3_mapped5 9 scenario3_world5
     = Return (0, set_list scenario3_mapped5 [67; 9], advance scenario3_world5 1 4)
  /\ a_state scenario4_final = LEX
  /\ anon_uint64_set_used scenario4_final 5 scenario4_world_final
     = Return (0, set_list scenario4_final [5], advance scenario4_world_final 4 11).
Proof. repeat split; vm_compute; reflexivity. Qed.

(** ** The range of the whole of [uint64_t] *)

(** C9. The modulus can be zero under [lower <= upper]: with the bounds 0
    and 2^64 - 1 [anon_uint64_new] passes its assertion and stores the range
    0, and the first [anon_uint64_map] on it reduces modulo zero, whatever
    the draws. *)
Theorem whole_range_wraps_to_zero (rnd : nat -> Z) (fuel : nat) (num : Z) :
  (0 <=? UINT64_MAX) = true
  /\ anon_uint64_new 0 UINT64_MAX (world_of rnd)
     = Return (Some whole_object, advance (world_of rnd) 0 1)
  /\ a_range whole_object = 0
  /\ anon_uint64_map (S fuel) whole_object num (advance (world_of rnd) 0 1) = Undefined.
Proof. repeat split. Qed.

(** In all other cases the modulus is the size of the interval. *)
Lemma range_positive lower upper a :
  reachable lower upper a -> ~ (lower = 0 /\ upper = UINT64_MAX) ->
  a_range a = upper - lower + 1 /\ 0 < a_range a.
Proof.
  intros Hr Hfull. pose proof (reachable_invariant _ _ _ Hr) as I.
  destruct I as [Il Iu Ir (Hl & Hu & Hle) _ _ _ _]. rewrite Ir.
  destruct (range_cases lower upper Hl Hu Hle) as [ [E _] | (_ & F) ]; [ | tauto ].
  rewrite E. split; [ reflexivity | lia ].
Qed.

(** ** The file read by [cmd_uint64] *)

(** C5. The file read is not the third positional argument: with the
    arguments 0, 99, ids.txt the command opens the file named by the
    second argument, 99; it exits with a failure when there is no such
    file, though ids.txt is there, and anonymizes the numbers of the file
    99 when there is one. *)
Theorem cmd_uint64_opens_upper :
  cmd_uint64 1 false ["0"; "99"; "ids.txt"]%string only_ids scenario3_world
    = Return (Exit EXIT_FAILURE, scenario3_world)
  /\ cmd_uint64 1 false ["0"; "99"; "ids.txt"]%string ids_and_99 scenario3_world
    = Return (Done "99" [67; 34; 1], advance scenario3_world 3 7).
Proof. split; vm_compute; reflexivity. Qed.

(** The name passed to [xfopen] is always the second positional argument. *)
Lemma cmd_uint64_file fuel lflag argv fs w opened printed w' :
  cmd_uint64 fuel lflag argv fs w = Return (Done opened printed, w') ->
  argv !! 1%nat = Some opened.
Proof.
  unfold cmd_uint64. destruct argv as [ | argv0 [ | argv1 [ | argv2 rest ] ] ];
    try discriminate.
  destruct (sscanf_u64 argv0); [ | discriminate ].
  destruct (sscanf_u64 argv1); [ | discriminate ].
  destruct (fs argv1); [ | discriminate ].
  intros H. bind_inv H. destruct x as [[a0 | ] w1]; [ | discriminate ].
  bind_inv H. destruct x as [[out a1] w2]. injection H as <- _ _. reflexivity.
Qed.

(** * Further properties of the code *)

(** ** Outputs are distinct *)

Lemma list_insert_elements l num w r l' w' :
  descending l -> list_insert l num w = (r, l', w') ->
  (forall x, x ∈ l -> x ∈ l') /\ (forall x, x ∈ l' -> x = num \/ x ∈ l)
  /\ (r = 0 -> num ∈ l').
Proof.
  intros Hd E. pose proof (list_insert_descending l num w Hd) as Hspec.
  rewrite E in Hspec.
  inversion Hspec as [ Hin | l0 Hnot Hh Hd' Hel Hlen | Hnot Hh ]; subst.
  - split; [ auto | ]. split; [ auto | lia ].
  - split; [ intros x Hx; apply Hel; auto | ].
    split; [ intros x Hx; apply Hel; exact Hx | intros _; apply Hel; auto ].
  - split; [ auto | ]. split; [ auto | lia ].
Qed.

(** The number that the loop of [anon_uint64_map] comes out with is new to
    the list, and is what the list gains. *)
Lemma draw_fresh_elements fuel a l w anum l' w' :
  descending l ->
  draw_fresh fuel a l w = Return (anum, l', w') ->
  (anum ∉ l) /\ (forall x, x ∈ l' <-> x = anum \/ x ∈ l).
Proof.
  intros Hd. revert w. induction fuel as [ | fuel IH ]; intros w; simpl; [ discriminate | ].
  intros H. bind_inv H. destruct x as [cand w1].
  destruct (list_insert_descending l cand w1 Hd) as [ Hin | l1 Hnot Hh Hd' Hel Hlen | Hnot Hh ];
    simpl in H.
  - exact (IH _ H).
  - injection H as <- <- <-. split; [ exact Hnot | exact Hel ].
  - discriminate.
Qed.

Lemma issued_new lower upper w a w' :
  anon_uint64_new lower upper w = Return (Some a, w') -> issued a.
Proof.
  unfold anon_uint64_new. destruct (lower <=? upper); simpl; [ | discriminate ].
  destruct (heap w (malloc_calls w)); simpl; [ | discriminate ].
  intros [= <- _] _. simpl. split.
  - intros k v H. rewrite lookup_empty in H. discriminate.
  - intros k1 k2 v H. rewrite lookup_empty in H. discriminate.
Qed.

Lemma issued_step a a' :
  descending (a_list a) -> issued a -> call_step a a' -> issued a'.
Proof.
  intros Hd J S.
  destruct S as [ a key | a num w r a' w' H | fuel a num w r anum a' w' H
                | fuel a num w r anum a' w' H ].
  - exact J.
  - pose proof (set_used_frame _ _ _ _ _ _ H) as [Es Et].
    unfold anon_uint64_set_used in H. simpl in H.
    destruct (list_insert (a_list a) num w) as [[r0 l0] w0] eqn:E.
    apply list_insert_elements in E as (Hkeep & _); [ | exact Hd ].
    assert (a_list a' = l0) as El by (destruct (0 <=? r0); injection H as _ <- _; reflexivity).
    intros Hs. rewrite Es in Hs. destruct (J Hs) as [J1 J2].
    rewrite Et, El. split; [ | exact J2 ]. intros k v Hk. apply Hkeep. eauto.
  - unfold anon_uint64_map in H. bind_inv H. destruct x as [[r0 a1] w1].
    apply set_state_NON_LEX in E as (Hs & Es1 & Et & Elist & _).
    destruct (J Hs) as [J1 J2].
    unfold lh_retrieve in H. destruct (a_hash_table a1 !! num) as [ hash | ] eqn:Eh.
    + injection H as _ _ <- _. intros _. rewrite Et, Elist. auto.
    + bind_inv H. destruct x as [[cand l] w2].
      destruct (heap w2 (malloc_calls w2)); simpl in H; [ | discriminate ].
      injection H as _ _ <- _. rewrite Elist in E.
      apply draw_fresh_elements in E as [Hnew Hel]; [ | exact Hd ].
      intros _. unfold lh_insert. simpl. rewrite Et. split.
      * intros k v Hk. rewrite lookup_insert in Hk. apply Hel.
        destruct (decide (num = k)); [ left; congruence | right; eauto ].
      * intros k1 k2 v H1 H2. rewrite lookup_insert in H1, H2.
        destruct (decide (num = k1)) as [ <- | N1 ]; destruct (decide (num = k2)) as [ <- | N2 ].
        -- reflexivity.
        -- exfalso. apply Hnew. injection H1 as <-. eauto.
        -- exfalso. apply Hnew. injection H2 as <-. eauto.
        -- eauto.
  - unfold anon_uint64_map_lex in H. bind_inv H. destruct x as [[r0 a1] w1].
    assert (a_state a1 = LEX) as Es.
    { simpl in E. destruct (a_state a) eqn:Ea; simpl in E.
      - bind_inv E. destruct x as [hl wh]. bind_inv E. destruct x as [t wt].
        injection E as _ <- _. reflexivity.
      - discriminate.
      - injection E as _ <- _. exact Ea. }
    unfold lh_retrieve in H. destruct (a_hash_table a1 !! num); [ | discriminate ].
    injection H as _ _ <- _. intros Hs. contradiction.
Qed.

Lemma reachable_issued lower upper a :
  reachable lower upper a -> issued a.
Proof.
  intros (Hl & Hu & w & a0 & w0 & Hnew & Hsteps).
  pose proof (issued_new _ _ _ _ _ Hnew) as J.
  apply new_invariant in Hnew as (I & _ & _); [ | assumption .. ].
  induction Hsteps as [ | x y z Hxy _ IH ]; [ exact J | ].
  apply IH.
  - eapply call_step_invariant; eassumption.
  - eapply issued_step; [ exact (inv_list _ _ _ I) | exact J | exact Hxy ].
Qed.

Lemma increasing_injective t : increasing t -> injective_table t.
Proof.
  intros Hinc k1 k2 v H1 H2.
  destruct (Z.lt_trichotomy k1 k2) as [ Hlt | [ E | Hgt ] ]; [ | exact E | ].
  - pose proof (Hinc _ _ _ _ H1 H2 Hlt). lia.
  - pose proof (Hinc _ _ _ _ H2 H1 Hgt). lia.
Qed.

(** In whatever state, the table of an object in use is injective. *)
Lemma reachable_injective lower upper a :
  reachable lower upper a -> injective_table (a_hash_table a).
Proof.
  intros Hr. destruct (a_state a) eqn:Es.
  - apply (reachable_issued _ _ _ Hr). congruence.
  - apply (reachable_issued _ _ _ Hr). congruence.
  - apply increasing_injective. exact (inv_lex _ _ _ (reachable_invariant _ _ _ Hr) Es).
Qed.

Lemma reachable_steps lower upper a a' :
  reachable lower upper a -> rtc call_step a a' -> reachable lower upper a'.
Proof.
  intros Hr Hsteps. induction Hsteps as [ | x y z Hxy _ IH ]; [ exact Hr | ].
  apply IH. eapply reachable_step; eassumption.
Qed.

Lemma map_lex_frame fuel a num w r anum a' w' :
  anon_uint64_map_lex fuel a num w = Return (r, anum, a', w') ->
  r = 0 /\ a_state a <> NON_LEX /\ a_state a' = LEX /\ a_hash_table a' !! num = Some anum.
Proof.
  unfold anon_uint64_map_lex. intros H. bind_inv H. destruct x as [[r0 a1] w1].
  assert (a_state a <> NON_LEX /\ a_state a1 = LEX) as [Hne Es].
  { simpl in E. destruct (a_state a) eqn:Ea; simpl in E.
    - bind_inv E. destruct x as [hl wh]. bind_inv E. destruct x as [t wt].
      injection E as _ <- _. split; [ discriminate | reflexivity ].
    - discriminate.
    - injection E as _ <- _. split; [ discriminate | exact Ea ]. }
  unfold lh_retrieve in H. destruct (a_hash_table a1 !! num) as [ hash | ] eqn:Eh;
    [ | discriminate ].
  injection H as <- <- <- _. auto.
Qed.

(** X1. Distinct inputs get distinct outputs, in either mode: on an object
    made by [anon_uint64_new], when [anon_uint64_map] returns for [x] and,
    after any further returning calls, for [y <> x], the two outputs
    differ; the same holds of [anon_uint64_map_lex]. *)
Theorem outputs_distinct lower upper a :
  reachable lower upper a ->
  (forall fuel1 x w1 r1 ax a1 w1' a2 fuel2 y w2 r2 ay a3 w2',
      anon_uint64_map fuel1 a x w1 = Return (r1, ax, a1, w1') ->
      rtc call_step a1 a2 ->
      anon_uint64_map fuel2 a2 y w2 = Return (r2, ay, a3, w2') ->
      x <> y -> ax <> ay)
  /\ (forall fuel1 x w1 r1 ax a1 w1' a2 fuel2 y w2 r2 ay a3 w2',
      anon_uint64_map_lex fuel1 a x w1 = Return (r1, ax, a1, w1') ->
      rtc call_step a1 a2 ->
      anon_uint64_map_lex fuel2 a2 y w2 = Return (r2, ay, a3, w2') ->
      x <> y -> ax <> ay).
Proof.
  intros Hr. split.
  - intros fuel1 x w1 r1 ax a1 w1' a2 fuel2 y w2 r2 ay a3 w2' H1 Hsteps H2 Hne Heq.
    assert (reachable lower upper a3) as Hr3.
    { eapply reachable_step; [ | eapply step_map; exact H2 ].
      eapply reachable_steps; [ | exact Hsteps ].
      eapply reachable_step; [ exact Hr | eapply step_map; exact H1 ]. }
    apply map_frame in H1 as (_ & _ & Hs1 & Ht1 & _).
    destruct (non_lex_entry_kept _ _ _ _ Hs1 Ht1 Hsteps) as [_ Ht2].
    apply map_frame in H2 as (_ & _ & _ & Ht3 & Hkeep).
    apply Hne. subst ay.
    exact (reachable_injective _ _ _ Hr3 _ _ _ (Hkeep _ _ Ht2) Ht3).
  - intros fuel1 x w1 r1 ax a1 w1' a2 fuel2 y w2 r2 ay a3 w2' H1 Hsteps H2 Hne Heq.
    assert (reachable lower upper a2) as Hr2.
    { eapply reachable_steps; [ | exact Hsteps ].
      eapply reachable_step; [ exact Hr | eapply step_map_lex; exact H1 ]. }
    apply map_lex_frame in H1 as (_ & _ & Hs1 & Ht1).
    destruct (lex_table_final _ _ Hs1 Hsteps) as [Hs2 Et].
    unfold anon_uint64_map_lex in H2. simpl in H2. rewrite Hs2 in H2. simpl in H2.
    unfold lh_retrieve in H2. destruct (a_hash_table a2 !! y) as [ hash | ] eqn:Ey;
      [ | discriminate ].
    injection H2 as _ <- _ _. apply Hne. subst hash. rewrite <- Et in Ht1.
    exact (reachable_injective _ _ _ Hr2 _ _ _ Ht1 Ey).
Qed.

Lemma outputs_distinct_witness :
  reachable 0 99 scenario3_object
  /\ anon_uint64_map 1 scenario3_object 5 scenario3_started
     = Return (0, 67, scenario3_mapped5, scenario3_world5)
  /\ anon_uint64_map 1 scenario3_mapped5 7 scenario3_world5
     = Return (0, 34, scenario3_mapped7, scenario3_world7)
  /\ 67 <> 34
  /\ reachable 0 9 scenario4_used
  /\ anon_uint64_map_lex 2 scenario4_used 1 scenario4_world_used
     = Return (0, 0, scenario4_final, scenario4_world_final)
  /\ anon_uint64_map_lex 0 scenario4_final 8 scenario4_world_final
     = Return (0, 7, scenario4_final, scenario4_world_final)
  /\ 0 <> 7.
Proof.
  split; [ exact scenario3_reachable | ].
  split; [ exact scenario3_map5 | ]. split; [ exact scenario3_map7 | ].
  split.
  { refine (proj1 (outputs_distinct 0 99 scenario3_object scenario3_reachable)
              1%nat 5 scenario3_started 0 67 scenario3_mapped5 scenario3_world5
              scenario3_mapped5 1%nat 7 scenario3_world5 0 34 scenario3_mapped7
              scenario3_world7 scenario3_map5 (rtc_refl _ _) scenario3_map7 _).
    lia. }
  split; [ exact scenario4_reachable | ].
  split; [ exact scenario4_map_lex_1 | ]. split; [ exact scenario4_map_lex_8 | ].
  refine (proj2 (outputs_distinct 0 9 scenario4_used scenario4_reachable)
            2%nat 1 scenario4_world_used 0 0 scenario4_final scenario4_world_final
            scenario4_final 0%nat 8 scenario4_world_final 0 7 scenario4_final
            scenario4_world_final scenario4_map_lex_1 (rtc_refl _ _)
            scenario4_map_lex_8 _).
  lia.
Defined.

(** ** The list is shared by the marked numbers and the outputs *)

(** X2. A new input never gets a number that is in the list: when
    [anon_uint64_map] returns for an input that is not in the table, its
    output is none of the numbers in the list before the call (the outputs
    given so far and the numbers marked with [anon_uint64_set_used]), the
    list gains exactly this output, and the table gains exactly this
    entry. *)
Theorem map_avoids_list lower upper a fuel num w r anum a' w' :
  reachable lower upper a ->
  a_hash_table a !! num = None ->
  anon_uint64_map fuel a num w = Return (r, anum, a', w') ->
  (anum ∉ a_list a)
  /\ (forall x, x ∈ a_list a' <-> x = anum \/ x ∈ a_list a)
  /\ a_hash_table a' = <[ num := anum ]> (a_hash_table a).
Proof.
  intros Hr Hmiss H. pose proof (inv_list _ _ _ (reachable_invariant _ _ _ Hr)) as Hd.
  unfold anon_uint64_map in H. bind_inv H. destruct x as [[r0 a1] w1].
  apply set_state_NON_LEX in E as (_ & _ & Et & Elist & _).
  unfold lh_retrieve in H. rewrite Et, Hmiss in H.
  bind_inv H. destruct x as [[cand l] w2].
  destruct (heap w2 (malloc_calls w2)); simpl in H; [ | discriminate ].
  injection H as _ <- <- _. rewrite Elist in E.
  apply draw_fresh_elements in E as [Hnew Hel]; [ | exact Hd ].
  simpl. unfold lh_insert. auto.
Qed.

Lemma marked_first_setup :
  new_with_used 0 1 [0] (cycling_world 2)
  = Return (Some marked_first, advance (cycling_world 2) 0 2).
Proof. vm_compute. reflexivity. Defined.

Lemma marked_first_reachable : reachable 0 1 marked_first.
Proof.
  apply (new_with_used_reachable 0 1 [0] (cycling_world 2) marked_first
           (advance (cycling_world 2) 0 2)).
  - apply small_is_uint64. lia.
  - apply small_is_uint64. lia.
  - exact marked_first_setup.
Defined.

Lemma marked_first_map :
  anon_uint64_map 2 marked_first 5 (advance (cycling_world 2) 0 2)
  = Return (0, 1, marked_then_mapped, advance (cycling_world 2) 2 4).
Proof. vm_compute. reflexivity. Defined.

Lemma map_avoids_list_witness :
  reachable 0 1 marked_first
  /\ a_hash_table marked_first !! 5 = None
  /\ anon_uint64_map 2 marked_first 5 (advance (cycling_world 2) 0 2)
     = Return (0, 1, marked_then_mapped, advance (cycling_world 2) 2 4)
  /\ (1 ∉ a_list marked_first).
Proof.
  split; [ exact marked_first_reachable | ]. split; [ reflexivity | ].
  split; [ exact marked_first_map | ].
  exact (proj1 (map_avoids_list 0 1 marked_first 2 5 (advance (cycling_world 2) 0 2)
                  0 1 marked_then_mapped (advance (cycling_world 2) 2 4)
                  marked_first_reachable eq_refl marked_first_map)).
Defined.

(** ** The table never outgrows the range *)

Lemma injective_table_size lower upper (t : gmap Z Z) :
  lower <= upper -> injective_table t ->
  (forall k v, t !! k = Some v -> lower <= v <= upper) ->
  Z.of_nat (size t) <= upper - lower + 1.
Proof.
  intros Hle Hinj Hval.
  assert (NoDup ((map_to_list t).*2)) as Hnd.
  { apply NoDup_fmap_2_strong; [ | apply NoDup_map_to_list ].
    intros [k1 v1] [k2 v2] H1 H2 Heq. simpl in Heq. subst v2.
    apply elem_of_map_to_list in H1, H2. f_equal. eapply Hinj; eassumption. }
  assert ((map_to_list t).*2 ⊆+ seqZ lower (upper - lower + 1)) as Hsub.
  { apply NoDup_submseteq; [ exact Hnd | ]. intros v Hv.
    apply list_elem_of_fmap in Hv as ([k v0] & -> & Hkv). simpl.
    apply elem_of_map_to_list in Hkv. apply Hval in Hkv.
    apply elem_of_seqZ. lia. }
  apply submseteq_length in Hsub.
  rewrite length_fmap, length_map_to_list, length_seqZ in Hsub. lia.
Qed.

(** X3. The table of an object in use never holds more entries than the
    interval has numbers: at most [upper - lower + 1] different inputs are
    ever mapped, in either mode. *)
Theorem table_within_capacity lower upper a :
  reachable lower upper a ->
  Z.of_nat (size (a_hash_table a)) <= upper - lower + 1.
Proof.
  intros Hr. pose proof (reachable_invariant _ _ _ Hr) as I.
  apply injective_table_size.
  - apply (inv_bounds _ _ _ I).
  - exact (reachable_injective _ _ _ Hr).
  - exact (inv_table _ _ _ I).
Qed.

Lemma table_within_capacity_witness :
  reachable 0 1 exhausted_object
  /\ Z.of_nat (size (a_hash_table exhausted_object)) <= 1 - 0 + 1.
Proof.
  split; [ exact exhausted_reachable | ].
  exact (table_within_capacity 0 1 exhausted_object exhausted_reachable).
Defined.

(** ** Lex mode once the mapping is final *)

(** X4. [anon_uint64_map_lex] answers the same for the same input: once it
    has returned [anum] for [num], then after any further returning calls
    (later [anon_uint64_set_used] calls included) it returns [anum] for
    [num] again, for every fuel and environment, without a draw or an
    allocation and leaving the object as it is. *)
Theorem map_lex_idempotent fuel a num w r anum a1 w1 a2 :
  anon_uint64_map_lex fuel a num w = Return (r, anum, a1, w1) ->
  rtc call_step a1 a2 ->
  forall fuel' w', anon_uint64_map_lex fuel' a2 num w' = Return (0, anum, a2, w').
Proof.
  intros H Hsteps fuel' w'.
  apply map_lex_frame in H as (_ & _ & Hs & Ht).
  destruct (lex_table_final _ _ Hs Hsteps) as [Hs2 Et].
  unfold anon_uint64_map_lex. simpl. rewrite Hs2. simpl.
  unfold lh_retrieve. rewrite Et, Ht. reflexivity.
Qed.

Lemma scenario4_late_set_used :
  anon_uint64_set_used scenario4_final 5 scenario4_world_final
  = Return (0, set_list scenario4_final [5], advance scenario4_world 4 11).
Proof. vm_compute. reflexivity. Defined.

Lemma map_lex_idempotent_witness :
  anon_uint64_map_lex 2 scenario4_used 1 scenario4_world_used
    = Return (0, 0, scenario4_final, scenario4_world_final)
  /\ rtc call_step scenario4_final (set_list scenario4_final [5])
  /\ anon_uint64_map_lex 0 (set_list scenario4_final [5]) 1 scenario4_world
    = Return (0, 0, set_list scenario4_final [5], scenario4_world).
Proof.
  assert (rtc call_step scenario4_final (set_list scenario4_final [5])) as Hsteps.
  { eapply rtc_l; [ | apply rtc_refl ].
    eapply step_set_used. exact scenario4_late_set_used. }
  split; [ exact scenario4_map_lex_1 | ]. split; [ exact Hsteps | ].
  exact (map_lex_idempotent 2 scenario4_used 1 scenario4_world_used 0 0 scenario4_final
           scenario4_world_final (set_list scenario4_final [5]) scenario4_map_lex_1
           Hsteps 0%nat scenario4_world).
Defined.

(** ** One mode for each object *)

(** X5. The two mapping functions exclude each other: once
    [anon_uint64_map] has returned, every later [anon_uint64_map_lex] on the
    object dies on the assertion [a->state == INIT], whatever was called in
    between; and once [anon_uint64_map_lex] has returned, every later
    [anon_uint64_map] does. *)
Theorem maps_exclude_each_other :
  (forall fuel a x w r ax a1 w1 a2,
      anon_uint64_map fuel a x w = Return (r, ax, a1, w1) ->
      rtc call_step a1 a2 ->
      forall fuel' y w', anon_uint64_map_lex fuel' a2 y w' = AssertFail)
  /\ (forall fuel a x w r ax a1 w1 a2,
      anon_uint64_map_lex fuel a x w = Return (r, ax, a1, w1) ->
      rtc call_step a1 a2 ->
      forall fuel' y w', anon_uint64_map fuel' a2 y w' = AssertFail).
Proof.
  split.
  - intros fuel a x w r ax a1 w1 a2 H Hsteps fuel' y w'.
    apply map_frame in H as (_ & _ & Hs & Ht & _).
    destruct (non_lex_entry_kept _ _ _ _ Hs Ht Hsteps) as [Hs2 _].
    apply map_lex_after_map_fails. exact Hs2.
  - intros fuel a x w r ax a1 w1 a2 H Hsteps fuel' y w'.
    apply map_lex_frame in H as (_ & _ & Hs & _).
    destruct (lex_table_final _ _ Hs Hsteps) as [Hs2 _].
    apply map_after_map_lex_fails. exact Hs2.
Qed.

Lemma maps_exclude_each_other_witness :
  anon_uint64_map 1 scenario3_object 5 scenario3_started
    = Return (0, 67, scenario3_mapped5, scenario3_world5)
  /\ anon_uint64_map_lex 1 scenario3_mapped5 5 scenario3_world5 = AssertFail
  /\ anon_uint64_map_lex 2 scenario4_used 1 scenario4_world_used
    = Return (0, 0, scenario4_final, scenario4_world_final)
  /\ anon_uint64_map 1 scenario4_final 1 scenario4_world_final = AssertFail.
Proof.
  split; [ exact scenario3_map5 | ]. split.
  { exact (proj1 maps_exclude_each_other 1%nat scenario3_object 5 scenario3_started 0 67
             scenario3_mapped5 scenario3_world5 scenario3_mapped5 scenario3_map5
             (rtc_refl _ _) 1%nat 5 scenario3_world5). }
  split; [ exact scenario4_map_lex_1 | ].
  exact (proj2 maps_exclude_each_other 2%nat scenario4_used 1 scenario4_world_used 0 0
           scenario4_final scenario4_world_final scenario4_final scenario4_map_lex_1
           (rtc_refl _ _) 1%nat 1 scenario4_world_final).
Defined.

(** ** Numbers that were not marked *)


Lemma world_of_roomy rnd r m : roomy (advance (world_of rnd) r m).
Proof. intros n. reflexivity. Qed.


(** ** Marking numbers *)

(** X7. What [anon_uint64_set_used] does, in whatever state the object is:
    the state and the table stay as they are; it returns 0 with the number
    in the list, the list having gained at most this number, or -1 when the
    number is new and [malloc] failed, the object being left as it was;
    marking a number that is in the list changes neither the object nor the
    environment. *)
Theorem set_used_effect lower upper a num w r a' w' :
  reachable lower upper a ->
  anon_uint64_set_used a num w = Return (r, a', w') ->
  a' = set_list a (a_list a')
  /\ ((r = 0 /\ num ∈ a_list a'
       /\ forall x, x ∈ a_list a' <-> x = num \/ x ∈ a_list a)
      \/ (r = -1 /\ a' = a /\ (num ∉ a_list a) /\ heap w (malloc_calls w) = false))
  /\ (num ∈ a_list a -> r = 0 /\ a' = a /\ w' = w).
Proof.
  intros Hr H. pose proof (inv_list _ _ _ (reachable_invariant _ _ _ Hr)) as Hd.
  unfold anon_uint64_set_used in H. simpl in H.
  pose proof (list_insert_descending (a_list a) num w Hd) as Hspec.
  destruct (list_insert (a_list a) num w) as [[r0 l0] w0] eqn:E.
  assert (set_list a (a_list a) = a) as Eta by (destruct a; reflexivity).
  inversion Hspec as [ Hin | l1 Hnot Hh Hd' Hel Hlen | Hnot Hh ]; subst; simpl in H;
    injection H as <- <- <-; simpl.
  - rewrite Eta. split; [ reflexivity | ]. split; [ | auto ].
    left. split; [ reflexivity | ]. split; [ exact Hin | ]. intros x. split; [ auto | ].
    intros [ -> | Hx ]; assumption.
  - split; [ reflexivity | ]. split; [ | intros Hin; contradiction ].
    left. split; [ reflexivity | ]. split; [ apply Hel; auto | exact Hel ].
  - rewrite Eta. split; [ reflexivity | ]. split; [ | intros Hin; contradiction ].
    right. auto.
Qed.

Lemma set_used_effect_witness :
  reachable 0 9 scenario4_used
  /\ anon_uint64_set_used scenario4_used 3 scenario4_world_used
     = Return (0, scenario4_used, scenario4_world_used)
  /\ scenario4_used = set_list scenario4_used (a_list scenario4_used).
Proof.
  assert (anon_uint64_set_used scenario4_used 3 scenario4_world_used
          = Return (0, scenario4_used, scenario4_world_used)) as E
    by (vm_compute; reflexivity).
  split; [ exact scenario4_reachable | ]. split; [ exact E | ].
  exact (proj1 (set_used_effect 0 9 scenario4_used 3 scenario4_world_used 0 scenario4_used
                  scenario4_world_used scenario4_reachable E)).
Defined.

(** Two strictly descending lists with the same numbers are the same list. *)
Lemma descending_ext l1 l2 :
  descending l1 -> descending l2 -> (forall x, x ∈ l1 <-> x ∈ l2) -> l1 = l2.
Proof.
  revert l2. induction l1 as [ | h1 t1 IH ]; intros [ | h2 t2 ] Hd1 Hd2 Hel.
  - reflexivity.
  - exfalso. apply (not_elem_of_nil h2). apply Hel. apply list_elem_of_here.
  - exfalso. apply (not_elem_of_nil h1). apply Hel. apply list_elem_of_here.
  - apply descending_cons in Hd1 as [Hd1 Hf1]. apply descending_cons in Hd2 as [Hd2 Hf2].
    rewrite Forall_forall in Hf1, Hf2.
    assert (h1 = h2) as ->.
    { assert (h1 ∈ h2 :: t2) as H1 by (apply Hel; apply list_elem_of_here).
      assert (h2 ∈ h1 :: t1) as H2 by (apply Hel; apply list_elem_of_here).
      apply elem_of_cons in H1 as [ E | H1 ]; [ exact E | ].
      apply elem_of_cons in H2 as [ E | H2 ]; [ congruence | ].
      specialize (Hf1 _ H2). specialize (Hf2 _ H1). lia. }
    f_equal. apply IH; [ exact Hd1 | exact Hd2 | ].
    intros x. split; intros Hx.
    + assert (x ∈ h2 :: t2) as H by (apply Hel; apply list_elem_of_further; exact Hx).
      apply elem_of_cons in H as [ -> | H ]; [ | exact H ].
      specialize (Hf1 _ Hx). lia.
    + assert (x ∈ h2 :: t1) as H by (apply Hel; apply list_elem_of_further; exact Hx).
      apply elem_of_cons in H as [ -> | H ]; [ | exact H ].
      specialize (Hf2 _ Hx). lia.
Qed.

(** The first pass of [uint64_lex] when no allocation fails: the list ends
    up holding the numbers it held and the numbers read. *)
Lemma mark_used_result a nums w a' w' :
  descending (a_list a) -> roomy w ->
  mark_used a nums w = Return (a', w') ->
  a' = set_list a (a_list a') /\ descending (a_list a')
  /\ (forall x, x ∈ a_list a' <-> x ∈ a_list a \/ x ∈ nums).
Proof.
  revert a w. induction nums as [ | num rest IH ]; intros a w Hd Hroomy; simpl.
  - intros [= <- _]. split; [ destruct a; reflexivity | ]. split; [ exact Hd | ].
    intros x. rewrite elem_of_nil. tauto.
  - unfold anon_uint64_set_used. simpl.
    pose proof (list_insert_descending (a_list a) num w Hd) as Hspec.
    destruct (list_insert (a_list a) num w) as [[r0 l0] w0] eqn:E.
    pose proof (list_insert_env _ _ _ _ _ _ E) as (_ & Hheap & _).
    assert (roomy w0) as Hroomy0 by (unfold roomy; rewrite Hheap; exact Hroomy).
    assert (descending l0 /\ forall x, x ∈ l0 <-> x = num \/ x ∈ a_list a) as [Hd0 Hel0].
    { inversion Hspec as [ Hin | l1 Hnot Hh Hd' Hel Hlen | Hnot Hh ]; subst.
      - split; [ exact Hd | ]. intros x. split; [ auto | ].
        intros [ -> | Hx ]; assumption.
      - split; assumption.
      - rewrite Hroomy in Hh. discriminate. }
    destruct (0 <=? r0); simpl; intros H;
      apply IH in H as (Ea & Hd' & Hel'); simpl in *; try assumption;
      (split; [ rewrite Ea; reflexivity | ]; split; [ exact Hd' | ];
       intros x; rewrite Hel', Hel0, elem_of_cons; tauto).
Qed.

(** X8. The order and the repetitions of the [anon_uint64_set_used] calls do
    not matter: when no allocation fails, marking the numbers of two
    sequences that hold the same numbers leaves the same object. *)
Theorem mark_used_order_irrelevant lower upper a nums1 nums2 w1 w2 a1 a2 w1' w2' :
  reachable lower upper a -> roomy w1 -> roomy w2 ->
  (forall x, x ∈ nums1 <-> x ∈ nums2) ->
  mark_used a nums1 w1 = Return (a1, w1') ->
  mark_used a nums2 w2 = Return (a2, w2') ->
  a1 = a2.
Proof.
  intros Hr Hroomy1 Hroomy2 Hsame H1 H2.
  pose proof (inv_list _ _ _ (reachable_invariant _ _ _ Hr)) as Hd.
  apply mark_used_result in H1 as (E1 & Hd1 & Hel1); [ | assumption .. ].
  apply mark_used_result in H2 as (E2 & Hd2 & Hel2); [ | assumption .. ].
  rewrite E1, E2. f_equal. apply descending_ext; [ exact Hd1 | exact Hd2 | ].
  intros x. rewrite Hel1, Hel2, Hsame. reflexivity.
Qed.

Lemma mark_used_order_irrelevant_witness :
  reachable 0 99 scenario3_object
  /\ mark_used scenario3_object [3; 8; 1] scenario3_started
     = Return (set_list scenario3_object [8; 3; 1], advance scenario3_world 0 4)
  /\ mark_used scenario3_object [1; 3; 8; 3; 1] scenario3_world
     = Return (set_list scenario3_object [8; 3; 1], advance scenario3_world 0 3)
  /\ set_list scenario3_object [8; 3; 1] = set_list scenario3_object [8; 3; 1].
Proof.
  assert (mark_used scenario3_object [3; 8; 1] scenario3_started
          = Return (set_list scenario3_object [8; 3; 1], advance scenario3_world 0 4))
    as E1 by (vm_compute; reflexivity).
  assert (mark_used scenario3_object [1; 3; 8; 3; 1] scenario3_world
          = Return (set_list scenario3_object [8; 3; 1], advance scenario3_world 0 3))
    as E2 by (vm_compute; reflexivity).
  split; [ exact scenario3_reachable | ]. split; [ exact E1 | ]. split; [ exact E2 | ].
  refine (mark_used_order_irrelevant 0 99 scenario3_object [3; 8; 1] [1; 3; 8; 3; 1]
            scenario3_started scenario3_world _ _ _ _ scenario3_reachable
            (world_of_roomy _ 0 1) (world_of_roomy _ 0 0) _ E1 E2).
  intros x. rewrite !elem_of_cons, !elem_of_nil. tauto.
Defined.

(** ** The calls return when the range has room *)

Lemma lex_finalization_succeeds_witness :
  reachable 0 9 scenario4_used
  /\ a_state scenario4_used = INIT
  /\ fair (9 - 0 + 1) (advance (cycling_world 10) 0 4)
  /\ roomy (advance (cycling_world 10) 0 4)
  /\ exists fuel0, forall fuel, (fuel0 <= fuel)%nat ->
       forall num, num ∈ a_list scenario4_used ->
         exists anum a' w',
           anon_uint64_map_lex fuel scenario4_used num (advance (cycling_world 10) 0 4)
           = Return (0, anum, a', w').
Proof.
  assert (fair (9 - 0 + 1) (advance (cycling_world 10) 0 4)) as Hfair
    by (apply cycling_fair; [ unfold UINT64_MOD; lia | reflexivity ]).
  split; [ exact scenario4_reachable | ]. split; [ reflexivity | ].
  split; [ exact Hfair | ]. split; [ apply world_of_roomy | ].
  apply (lex_finalization_succeeds 0 9 scenario4_used (advance (cycling_world 10) 0 4)
           scenario4_reachable eq_refl).
  - simpl. lia.
  - simpl. unfold INT_MAX. lia.
  - unfold UINT64_MAX, UINT64_MOD. lia.
  - exact Hfair.
  - apply world_of_roomy.
Defined.

Lemma map_returns_witness :
  reachable 0 99 scenario3_object
  /\ fair (99 - 0 + 1) (advance (cycling_world 100) 0 1)
  /\ exists fuel0 anum a' w', forall fuel, (fuel0 <= fuel)%nat ->
       anon_uint64_map fuel scenario3_object 5 (advance (cycling_world 100) 0 1)
       = Return (0, anum, a', w').
Proof.
  assert (fair (99 - 0 + 1) (advance (cycling_world 100) 0 1)) as Hfair
    by (apply cycling_fair; [ unfold UINT64_MOD; lia | reflexivity ]).
  split; [ exact scenario3_reachable | ]. split; [ exact Hfair | ].
  apply (map_returns 0 99 scenario3_object 5 (advance (cycling_world 100) 0 1)
           scenario3_reachable).
  - discriminate.
  - simpl. lia.
  - unfold UINT64_MAX, UINT64_MOD. lia.
  - exact Hfair.
  - apply world_of_roomy.
Defined.

(** ** The two passes of the sample program *)

Lemma print_lex_table fuel a nums w out a' w' :
  print_lex fuel a nums w = Return (out, a', w') ->
  rtc call_step a a'
  /\ Forall2 (fun num anum => a_hash_table a' !! num = Some anum) nums out
  /\ (nums <> [] -> a_state a' = LEX).
Proof.
  revert a w out a' w'. induction nums as [ | num rest IH ]; intros a w out a' w'; simpl.
  - intros [= <- <- _]. split; [ apply rtc_refl | ]. split; [ constructor | congruence ].
  - intros H. bind_inv H. destruct x as [[[r anum] a1] w1].
    bind_inv H. destruct x as [[out1 a2] w2]. injection H as <- <- _.
    apply IH in E0 as (Hsteps & Hall & _).
    pose proof (map_lex_frame _ _ _ _ _ _ _ _ E) as (_ & _ & Hs & Ht).
    destruct (lex_table_final _ _ Hs Hsteps) as [Hs2 Et].
    split; [ eapply rtc_l; [ eapply step_map_lex; exact E | exact Hsteps ] | ].
    split; [ | intros _; exact Hs2 ].
    constructor; [ rewrite Et; exact Ht | exact Hall ].
Qed.

Lemma uint64_nolex_table fuel a f w out a' w' :
  uint64_nolex fuel a f w = Return (out, a', w') ->
  rtc call_step a a'
  /\ Forall2 (fun num anum => a_hash_table a' !! num = Some anum) f out.
Proof.
  revert a w out a' w'. induction f as [ | num rest IH ]; intros a w out a' w'; simpl.
  - intros [= <- <- _]. split; [ apply rtc_refl | constructor ].
  - intros H. bind_inv H. destruct x as [[[r anum] a1] w1].
    bind_inv H. destruct x as [[out1 a2] w2]. injection H as <- <- _.
    apply IH in E0 as (Hsteps & Hall).
    pose proof (map_frame _ _ _ _ _ _ _ _ E) as (_ & _ & Hs & Ht & _).
    destruct (non_lex_entry_kept _ _ _ _ Hs Ht Hsteps) as [_ Ht2].
    split; [ eapply rtc_l; [ eapply step_map; exact E | exact Hsteps ] | ].
    constructor; [ exact Ht2 | exact Hall ].
Qed.

(** X11. The two passes of [uint64_lex] over a file, on an object made by
    [anon_uint64_new]: when the function returns it has printed one number
    for each number read, each within the bounds, equal numbers for equal
    inputs and numbers in the order of the inputs. *)
Theorem uint64_lex_prints_in_order lower upper a fuel f w out a' w' :
  reachable lower upper a ->
  uint64_lex fuel a f w = Return (out, a', w') ->
  length out = length f
  /\ forall i j x y ox oy,
       f !! i = Some x -> f !! j = Some y ->
       out !! i = Some ox -> out !! j = Some oy ->
       lower <= ox <= upper /\ (x < y -> ox < oy) /\ (x = y -> ox = oy).
Proof.
  intros Hr H. unfold uint64_lex in H. bind_inv H. destruct x as [a1 w1].
  apply mark_used_steps in E.
  apply print_lex_table in H as (Hsteps & Hall & Hs).
  assert (reachable lower upper a') as Hr'
    by (eapply reachable_steps; [ eapply reachable_steps; eassumption | exact Hsteps ]).
  pose proof (reachable_invariant _ _ _ Hr') as I.
  split; [ symmetry; exact (Forall2_length _ _ _ Hall) | ].
  intros i j x y ox oy Hi Hj Hoi Hoj.
  pose proof (Forall2_lookup_lr _ _ _ _ _ _ Hall Hi Hoi) as Hx.
  pose proof (Forall2_lookup_lr _ _ _ _ _ _ Hall Hj Hoj) as Hy. simpl in Hx, Hy.
  assert (a_state a' = LEX) as Hlex.
  { apply Hs. intros ->. rewrite lookup_nil in Hi. discriminate. }
  split; [ exact (inv_table _ _ _ I _ _ Hx) | ]. split.
  - intros Hlt. exact (inv_lex _ _ _ I Hlex _ _ _ _ Hx Hy Hlt).
  - intros ->. congruence.
Qed.

(** X12. [uint64_nolex] over a file, on an object made by
    [anon_uint64_new]: when the function returns it has printed one number
    for each number read, each within the bounds, and two printed numbers
    are equal exactly when the inputs are. *)
Theorem uint64_nolex_prints_injectively lower upper a fuel f w out a' w' :
  reachable lower upper a ->
  uint64_nolex fuel a f w = Return (out, a', w') ->
  length out = length f
  /\ forall i j x y ox oy,
       f !! i = Some x -> f !! j = Some y ->
       out !! i = Some ox -> out !! j = Some oy ->
       lower <= ox <= upper /\ (x = y <-> ox = oy).
Proof.
  intros Hr H. apply uint64_nolex_table in H as (Hsteps & Hall).
  assert (reachable lower upper a') as Hr' by (eapply reachable_steps; eassumption).
  pose proof (reachable_invariant _ _ _ Hr') as I.
  split; [ symmetry; exact (Forall2_length _ _ _ Hall) | ].
  intros i j x y ox oy Hi Hj Hoi Hoj.
  pose proof (Forall2_lookup_lr _ _ _ _ _ _ Hall Hi Hoi) as Hx.
  pose proof (Forall2_lookup_lr _ _ _ _ _ _ Hall Hj Hoj) as Hy. simpl in Hx, Hy.
  split; [ exact (inv_table _ _ _ I _ _ Hx) | ]. split.
  - intros ->. congruence.
  - intros ->. exact (reachable_injective _ _ _ Hr' _ _ _ Hx Hy).
Qed.

Lemma scenario4_fresh_reachable : reachable 0 9 scenario4_fresh.
Proof.
  apply (new_with_used_reachable 0 9 [] scenario4_world scenario4_fresh
           (advance scenario4_world 0 1)).
  - apply small_is_uint64. lia.
  - apply small_is_uint64. lia.
  - vm_compute. reflexivity.
Defined.

Lemma scenario4_uint64_lex :
  uint64_lex 2 scenario4_fresh [3; 8; 1] (advance scenario4_world 0 1)
  = Return ([3; 7; 0], scenario4_final, scenario4_world_final).
Proof. vm_compute. reflexivity. Defined.

Lemma uint64_lex_prints_in_order_witness :
  reachable 0 9 scenario4_fresh
  /\ uint64_lex 2 scenario4_fresh [3; 8; 1] (advance scenario4_world 0 1)
     = Return ([3; 7; 0], scenario4_final, scenario4_world_final)
  /\ length [3; 7; 0] = length [3; 8; 1]
  /\ forall i j x y ox oy,
       [3; 8; 1] !! i = Some x -> [3; 8; 1] !! j = Some y ->
       [3; 7; 0] !! i = Some ox -> [3; 7; 0] !! j = Some oy ->
       0 <= ox <= 9 /\ (x < y -> ox < oy) /\ (x = y -> ox = oy).
Proof.
  split; [ exact scenario4_fresh_reachable | ]. split; [ exact scenario4_uint64_lex | ].
  exact (uint64_lex_prints_in_order 0 9 scenario4_fresh 2 [3; 8; 1]
           (advance scenario4_world 0 1) [3; 7; 0] scenario4_final scenario4_world_final
           scenario4_fresh_reachable scenario4_uint64_lex).
Defined.

Lemma scenario3_uint64_nolex :
  uint64_nolex 1 scenario3_object [5; 5; 7] scenario3_started
  = Return ([67; 67; 34], scenario3_mapped7, scenario3_world7).
Proof. vm_compute. reflexivity. Defined.

Lemma uint64_nolex_prints_injectively_witness :
  reachable 0 99 scenario3_object
  /\ uint64_nolex 1 scenario3_object [5; 5; 7] scenario3_started
     = Return ([67; 67; 34], scenario3_mapped7, scenario3_world7)
  /\ length [67; 67; 34] = length [5; 5; 7]
  /\ forall i j x y ox oy,
       [5; 5; 7] !! i = Some x -> [5; 5; 7] !! j = Some y ->
       [67; 67; 34] !! i = Some ox -> [67; 67; 34] !! j = Some oy ->
       0 <= ox <= 99 /\ (x = y <-> ox = oy).
Proof.
  split; [ exact scenario3_reachable | ]. split; [ exact scenario3_uint64_nolex | ].
  exact (uint64_nolex_prints_injectively 0 99 scenario3_object 1 [5; 5; 7]
           scenario3_started [67; 67; 34] scenario3_mapped7 scenario3_world7
           scenario3_reachable scenario3_uint64_nolex).
Defined.

(** ** The [uint64] subcommand as a whole *)

Lemma digit_of_range c d : digit_of c = Some d -> 0 <= d <= 9.
Proof.
  unfold digit_of.
  destruct (Z.leb_spec 48 (Z.of_nat (nat_of_ascii c)));
    destruct (Z.leb_spec (Z.of_nat (nat_of_ascii c)) 57); simpl; try discriminate.
  intros [= <-]. lia.
Qed.

Lemma read_digits_nonneg s acc v :
  0 <= default 0 acc -> read_digits s acc = Some v -> 0 <= v.
Proof.
  revert acc. induction s as [ | c rest IH ]; intros acc Hacc; simpl.
  - intros ->. exact Hacc.
  - destruct (digit_of c) as [ d | ] eqn:Ed.
    + apply IH. simpl. apply digit_of_range in Ed. lia.
    + intros ->. exact Hacc.
Qed.

Lemma sscanf_u64_range s v : sscanf_u64 s = Some v -> is_uint64 v.
Proof.
  unfold sscanf_u64.
  match goal with
  | |- context [ let '(neg, s2) := ?m in _ ] => destruct m as [neg s2]
  end.
  destruct (read_digits s2 None) as [ d | ] eqn:Ed; [ | discriminate ].
  apply read_digits_nonneg in Ed; [ | simpl; lia ].
  intros [= <-]. destruct (Z.ltb_spec UINT64_MAX d).
  - unfold is_uint64, UINT64_MAX, UINT64_MOD. lia.
  - destruct neg; [ apply wrap64_is_uint64 | ].
    unfold is_uint64, UINT64_MAX in *. lia.
Qed.

Lemma table_values_within lower upper a (nums out : list Z) :
  invariant lower upper a ->
  Forall2 (fun num anum => a_hash_table a !! num = Some anum) nums out ->
  Forall (fun anum => lower <= anum <= upper) out.
Proof.
  intros I Hall. induction Hall as [ | num anum nums out Hh _ IH ]; constructor.
  - exact (inv_table _ _ _ I _ _ Hh).
  - exact IH.
Qed.

(** X13. What [cmd_uint64] has done when it returns: there were at least
    three positional arguments, the first two were read as the bounds
    [lower <= upper], the file named by the second one could be opened, and
    one number within the bounds was printed for each number of that file. *)
Theorem cmd_uint64_done fuel lflag argv fs w opened printed w' :
  cmd_uint64 fuel lflag argv fs w = Return (Done opened printed, w') ->
  exists argv0 rest lower upper f,
    argv = argv0 :: opened :: rest /\ rest <> []
    /\ sscanf_u64 argv0 = Some lower /\ sscanf_u64 opened = Some upper
    /\ lower <= upper /\ fs opened = Some f
    /\ length printed = length f
    /\ Forall (fun anum => lower <= anum <= upper) printed.
Proof.
  unfold cmd_uint64. destruct argv as [ | argv0 [ | argv1 [ | argv2 rest ] ] ];
    try discriminate.
  destruct (sscanf_u64 argv0) as [ lower | ] eqn:E0; [ | discriminate ].
  destruct (sscanf_u64 argv1) as [ upper | ] eqn:E1; [ | discriminate ].
  destruct (fs argv1) as [ f | ] eqn:Ef; [ | discriminate ].
  intros H. bind_inv H. destruct x as [[a0 | ] w1]; [ | discriminate ].
  bind_inv H. destruct x as [[out a1] w2]. injection H as <- <- _.
  assert (reachable lower upper a0) as Hr.
  { split; [ exact (sscanf_u64_range _ _ E0) | ].
    split; [ exact (sscanf_u64_range _ _ E1) | ].
    exists w, a0, w1. split; [ exact E | apply rtc_refl ]. }
  assert (exists a', rtc call_step a0 a'
            /\ Forall2 (fun num anum => a_hash_table a' !! num = Some anum) f out)
    as (a' & Hsteps & Hall).
  { destruct lflag.
    - unfold uint64_lex in E2. bind_inv E2. destruct x as [am wm].
      apply mark_used_steps in E3. apply print_lex_table in E2 as (Hsteps & Hall & _).
      exists a1. split; [ | exact Hall ].
      eapply rtc_trans; [ exact E3 | exact Hsteps ].
    - apply uint64_nolex_table in E2 as (Hsteps & Hall). eauto. }
  pose proof (reachable_invariant _ _ _ (reachable_steps _ _ _ _ Hr Hsteps)) as I.
  exists argv0, (argv2 :: rest), lower, upper, f.
  repeat split; try assumption; try reflexivity.
  - discriminate.
  - apply (inv_bounds _ _ _ I).
  - symmetry. exact (Forall2_length _ _ _ Hall).
  - exact (table_values_within _ _ _ _ _ I Hall).
Qed.

Lemma cmd_uint64_done_witness :
  cmd_uint64 1 false ["0"; "99"; "ids.txt"]%string ids_and_99 scenario3_world
    = Return (Done "99" [67; 34; 1], advance scenario3_world 3 7)
  /\ exists argv0 rest lower upper f,
       ["0"; "99"; "ids.txt"]%string = argv0 :: "99"%string :: rest /\ rest <> []
       /\ sscanf_u64 argv0 = Some lower /\ sscanf_u64 "99" = Some upper
       /\ lower <= upper /\ ids_and_99 "99"%string = Some f
       /\ length [67; 34; 1] = length f
       /\ Forall (fun anum => lower <= anum <= upper) [67; 34; 1].
Proof.
  assert (cmd_uint64 1 false ["0"; "99"; "ids.txt"]%string ids_and_99 scenario3_world
          = Return (Done "99" [67; 34; 1], advance scenario3_world 3 7)) as E
    by (vm_compute; reflexivity).
  split; [ exact E | ].
  exact (cmd_uint64_done 1 false ["0"; "99"; "ids.txt"]%string ids_and_99 scenario3_world
           "99" [67; 34; 1] (advance scenario3_world 3 7) E).
Defined.

(** ** Lex mode with nothing marked *)

(** X15. On an object fresh from [anon_uint64_new], with no number marked,
    [anon_uint64_map_lex] dies on [assert(p)] for every number, whatever
    the fuel and the environment: the finalization of the empty list makes
    no draw and no allocation and leaves the table empty. *)
Theorem map_lex_on_fresh_object_fails lower upper w a w0 :
  anon_uint64_new lower upper w = Return (Some a, w0) ->
  forall fuel num w', anon_uint64_map_lex fuel a num w' = AssertFail.
Proof.
  unfold anon_uint64_new. destruct (lower <=? upper); simpl; [ | discriminate ].
  destruct (heap w (malloc_calls w)); simpl; [ | discriminate ].
  intros [= <- _] fuel num w'. unfold anon_uint64_map_lex. simpl.
  unfold lh_retrieve. rewrite lookup_empty. reflexivity.
Qed.

Lemma map_lex_on_fresh_object_fails_witness :
  anon_uint64_new 0 9 scenario4_world
    = Return (Some scenario4_fresh, advance scenario4_world 0 1)
  /\ anon_uint64_map_lex 0 scenario4_fresh 3 (advance scenario4_world 0 1) = AssertFail.
Proof.
  assert (anon_uint64_new 0 9 scenario4_world
          = Return (Some scenario4_fresh, advance scenario4_world 0 1)) as E
    by (vm_compute; reflexivity).
  split; [ exact E | ].
  exact (map_lex_on_fresh_object_fails 0 9 scenario4_world scenario4_fresh
           (advance scenario4_world 0 1) E 0%nat 3 (advance scenario4_world 0 1)).
Defined.

(** ** [trim] *)

Lemma skip_space_split b :
  exists lead, b = (lead ++ skip_space b)%string /\ all_space lead = true
               /\ head_is_space (skip_space b) = false.
Proof.
  induction b as [ | c rest IH ]; simpl.
  - exists EmptyString. auto.
  - destruct (is_space c) eqn:Ec.
    + destruct IH as (lead & E & Hl & Hh). exists (String c lead). simpl.
      rewrite Ec, Hl. split; [ | auto ].
      change (String c rest = String c (lead ++ skip_space rest)%string).
      f_equal. exact E.
    + exists EmptyString. simpl. rewrite Ec. auto.
Qed.

Lemma chop_spaces_split s :
  exists trail, s = (chop_spaces s ++ trail)%string /\ all_space trail = true
                /\ last_is_space (chop_spaces s) = false.
Proof.
  induction s as [ | c rest IH ]; simpl.
  - exists EmptyString. auto.
  - destruct IH as (trail & E & Ht & Hlast).
    destruct (chop_spaces rest) as [ | d r ] eqn:Ec.
    + change (rest = trail) in E. subst trail. destruct (is_space c) eqn:Es.
      * exists (String c rest). split; [ reflexivity | ]. simpl. rewrite Es, Ht. auto.
      * exists rest. split; [ reflexivity | ]. simpl. rewrite Es. auto.
    + exists trail. split; [ | split; [ exact Ht | exact Hlast ] ].
      change (String c rest = String c (String d r ++ trail)%string).
      f_equal. exact E.
Qed.

Lemma trim_tail_chop s :
  head_is_space s = false -> trim_tail s = chop_spaces s.
Proof.
  destruct s as [ | c rest ]; simpl; [ reflexivity | ]. intros ->.
  destruct (chop_spaces rest); reflexivity.
Qed.

Lemma chop_spaces_clean s :
  last_is_space s = false -> chop_spaces s = s.
Proof.
  induction s as [ | c rest IH ]; simpl; [ reflexivity | ].
  destruct rest as [ | d r ].
  - simpl. intros ->. reflexivity.
  - intros H. rewrite (IH H). reflexivity.
Qed.

Lemma skip_space_clean s :
  head_is_space s = false -> skip_space s = s.
Proof. destruct s as [ | c rest ]; simpl; [ reflexivity | ]. intros ->. reflexivity. Qed.

(** What [trim] leaves of a buffer. *)
Lemma trim_decomposition b :
  exists lead r trail,
    trim (Some b) = (1, Some r)
    /\ b = (lead ++ r ++ trail)%string
    /\ all_space lead = true /\ all_space trail = true
    /\ head_is_space r = false /\ last_is_space r = false.
Proof.
  destruct (skip_space_split b) as (lead & Eb & Hlead & Hhead).
  destruct (chop_spaces_split (skip_space b)) as (trail & Es & Htrail & Hlast).
  exists lead, (chop_spaces (skip_space b)), trail.
  split; [ unfold trim; rewrite (trim_tail_chop _ Hhead); reflexivity | ].
  split; [ rewrite <- Es; exact Eb | ]. repeat split; try assumption.
  rewrite <- (trim_tail_chop _ Hhead).
  destruct (skip_space b) as [ | c rest ]; [ reflexivity | exact Hhead ].
Qed.

(** X16. [trim] returns 0 on the NULL pointer and 1 otherwise; the string it
    leaves in the buffer is the old one without a run of white space at the
    front and a run of white space at the end, and has white space neither
    as its first nor as its last character (it is empty when the buffer
    held white space only). *)
Theorem trim_strips_both_ends :
  trim None = (0, None)
  /\ forall b, exists lead r trail,
       trim (Some b) = (1, Some r)
       /\ b = (lead ++ r ++ trail)%string
       /\ all_space lead = true /\ all_space trail = true
       /\ head_is_space r = false /\ last_is_space r = false.
Proof. split; [ reflexivity | exact trim_decomposition ]. Qed.

(** X17. [trim] leaves alone a string that has white space at neither end,
    so that trimming a buffer twice gives what trimming it once gives. *)
Theorem trim_idempotent :
  (forall b, head_is_space b = false -> last_is_space b = false ->
             trim (Some b) = (1, Some b))
  /\ (forall b, trim (snd (trim (Some b))) = trim (Some b)).
Proof.
  assert (forall b, head_is_space b = false -> last_is_space b = false ->
                    trim (Some b) = (1, Some b)) as Hclean.
  { intros b Hh Hl. unfold trim.
    rewrite (skip_space_clean _ Hh), (trim_tail_chop _ Hh), (chop_spaces_clean _ Hl).
    reflexivity. }
  split; [ exact Hclean | ]. intros b.
  destruct (trim_decomposition b) as (lead & r & trail & E & _ & _ & _ & Hh & Hl).
  rewrite E. simpl. apply Hclean; assumption.
Qed.

Lemma trim_idempotent_witness :
  head_is_space "10.0.0.1" = false /\ last_is_space "10.0.0.1" = false
  /\ trim (Some "10.0.0.1"%string) = (1, Some "10.0.0.1"%string).
Proof.
  split; [ reflexivity | ]. split; [ reflexivity | ].
  exact (proj1 trim_idempotent "10.0.0.1"%string eq_refl eq_refl).
Defined.
